(** * Verification of [src/data/post.ts]

    The module filters the "post" content collection by build mode and
    derives three views of an article sequence: a year index, the flattened
    tag list with its deduplicated vocabulary, and a tag frequency ranking.

    The embedding is shallow.  JavaScript arrays are lists; the plain object
    used as [Record<string, ...>] is a finite map; the [Set] and the [Map],
    whose iteration order is insertion order, are an insertion-ordered list
    and association list; [number] is [Z]. *)

From stdpp Require Import base list gmap strings sorting.
From Stdlib Require Import ZArith Lia.

Open Scope Z_scope.

(** ** Data model *)

(** A JavaScript [Date], of which the module only reads [getFullYear()].
    Dates are valid ones, so the year is an integer. *)
Record Date := { getFullYear : Z }.

(** [CollectionEntry<"post">["data"]]: the front matter fields read here. *)
Record PostData := {
  draft : bool;
  publishDate : Date;
  tags : list string;
}.

(** [CollectionEntry<"post">]: the entry path [id] and its [data]. *)
Record CollectionEntry := {
  id : string;
  data : PostData;
}.

#[global] Instance Date_eq_dec : EqDecision Date.
Proof. solve_decision. Defined.
#[global] Instance PostData_eq_dec : EqDecision PostData.
Proof. solve_decision. Defined.
#[global] Instance CollectionEntry_eq_dec : EqDecision CollectionEntry.
Proof. solve_decision. Defined.

(** ** The visibility filter, [getAllPosts] *)

(** [String.prototype.startsWith]. *)
Definition startsWith (s p : string) : bool := String.prefix p s.

(** [getCollection(collection, filter)] of [astro:content]: the entries of
    the collection, in collection order, on which the callback is truthy. *)
Definition getCollection (collection : list CollectionEntry)
    (f : CollectionEntry → bool) : list CollectionEntry :=
  List.filter f collection.

(** The callback handed to [getCollection]; [PROD] is [import.meta.env.PROD]. *)
Definition getAllPosts_filter (PROD : bool) (entry : CollectionEntry) : bool :=
  if PROD then
    let isDemo := startsWith (id entry) "demo/" in
    negb (draft (data entry)) && negb isDemo
  else
    negb (draft (data entry)).

Definition getAllPosts (PROD : bool) (collection : list CollectionEntry)
    : list CollectionEntry :=
  getCollection collection (getAllPosts_filter PROD).

(** ** The year index, [groupPostsByYear] *)

(** One step of the [reduce]: the bucket of the year is created on first
    encounter, then the post is pushed onto it.  [acc[year]?.push(post)] does
    nothing on a missing bucket, as [alter] does.  The keys are the decimal
    renderings of integers, which name no property of [Object.prototype], so
    reading [acc[year]] sees own properties only and the keys are in
    bijection with the years. *)
Definition groupPostsByYear_step (acc : gmap Z (list CollectionEntry))
    (post : CollectionEntry) : gmap Z (list CollectionEntry) :=
  let year := getFullYear (publishDate (data post)) in
  let acc := match acc !! year with
             | None => <[year := []]> acc
             | Some _ => acc
             end in
  alter (λ bucket, bucket ++ [post]) year acc.

Definition groupPostsByYear (posts : list CollectionEntry)
    : gmap Z (list CollectionEntry) :=
  fold_left groupPostsByYear_step posts ∅.

(** ** The tag views *)

(** [posts.flatMap((post) => [...post.data.tags])]. *)
Definition getAllTags (posts : list CollectionEntry) : list string :=
  flat_map (λ post, tags (data post)) posts.

(** [Set.prototype.add] on a [Set] kept as its insertion-ordered elements. *)
Definition Set_add (s : list string) (t : string) : list string :=
  if bool_decide (t ∈ s) then s else s ++ [t].

(** [new Set(iterable)]: the elements are added one by one, left to right. *)
Definition Set_new (l : list string) : list string :=
  fold_left Set_add l [].

(** [[...new Set(getAllTags(posts))]]. *)
Definition getUniqueTags (posts : list CollectionEntry) : list string :=
  Set_new (getAllTags posts).

(** [Map.prototype.get] on a [Map] kept as its insertion-ordered entries. *)
Fixpoint Map_get (m : list (string * Z)) (k : string) : option Z :=
  match m with
  | [] => None
  | (k', v) :: m' => if bool_decide (k' = k) then Some v else Map_get m' k
  end.

(** [Map.prototype.set]: the value of an existing key is replaced where the
    key stands, a new key is appended. *)
Fixpoint Map_set (m : list (string * Z)) (k : string) (v : Z)
    : list (string * Z) :=
  match m with
  | [] => [(k, v)]
  | (k', v') :: m' =>
      if bool_decide (k' = k) then (k', v) :: m' else (k', v') :: Map_set m' k v
  end.

(** The reducer [(acc, t) => acc.set(t, (acc.get(t) ?? 0) + 1)]. *)
Definition count_step (acc : list (string * Z)) (t : string)
    : list (string * Z) :=
  Map_set acc t (default 0 (Map_get acc t) + 1).

(** [Array.prototype.sort(compareFn)].  The sort is stable, and [a] is placed
    before [b] when [compareFn(a, b) <= 0]; for a comparator that is a total
    preorder this fixes the result, which the insertion sort below computes. *)
Section sort.
Context {A : Type} (compareFn : A → A → Z).

Fixpoint sort_insert (a : A) (l : list A) : list A :=
  match l with
  | [] => [a]
  | b :: l' =>
      if compareFn a b <=? 0 then a :: b :: l' else b :: sort_insert a l'
  end.

Definition Array_sort (l : list A) : list A := foldr sort_insert [] l.
End sort.

(** The comparator [(a, b) => b[1] - a[1]]. *)
Definition by_count_desc (a b : string * Z) : Z := b.2 - a.2.

(** The [Map] the [reduce] builds from [new Map<string, number>()]. *)
Definition count_tags (l : list string) : list (string * Z) :=
  fold_left count_step l [].

(** Spreading the [Map] lists its entries in insertion order; that array is
    then sorted. *)
Definition getUniqueTagsWithCount (posts : list CollectionEntry)
    : list (string * Z) :=
  Array_sort by_count_desc (count_tags (getAllTags posts)).

(** ** Reference definitions used in the statements *)

(** The input sequence with exactly the drafts removed, order preserved. *)
Fixpoint without_drafts (l : list CollectionEntry) : list CollectionEntry :=
  match l with
  | [] => []
  | p :: l' =>
      if draft (data p) then without_drafts l' else p :: without_drafts l'
  end.

(** The year an article is filed under. *)
Definition year_of (post : CollectionEntry) : Z :=
  getFullYear (publishDate (data post)).

(** The articles of a sequence published in a given year, in input order. *)
Definition published_in (y : Z) (posts : list CollectionEntry)
    : list CollectionEntry :=
  filter (λ p, year_of p = y) posts.

(** All bucket contents of a year index, bucket after bucket. *)
Definition bucket_contents (m : gmap Z (list CollectionEntry))
    : list CollectionEntry :=
  concat ((map_to_list m).*2).

(** The position of the first occurrence of a tag in a sequence (its length
    when the tag does not occur). *)
Fixpoint first_index (l : list string) (t : string) : nat :=
  match l with
  | [] => 0%nat
  | x :: l' => if decide (x = t) then 0%nat else S (first_index l' t)
  end.

(** [t1] occurs for the first time before [t2] does. *)
Definition first_seen_before (l : list string) (t1 t2 : string) : Prop :=
  (first_index l t1 < first_index l t2)%nat.

(** The number of occurrences of a tag in a sequence. *)
Definition occurrences (l : list string) (t : string) : Z :=
  Z.of_nat (length (filter (λ x, x = t) l)).

(** The number of articles whose tag list contains a tag. *)
Definition articles_with_tag (posts : list CollectionEntry) (t : string) : Z :=
  Z.of_nat (length (filter (λ p, t ∈ tags (data p)) posts)).

(** The sum of the counts of a frequency table. *)
Definition total_count (m : list (string * Z)) : Z :=
  foldr (λ e s, e.2 + s) 0 m.

(** The order of the ranking: greater count first and, among equal counts,
    the order [T]. *)
Definition count_then (T : relation (string * Z)) (a b : string * Z) : Prop :=
  b.2 < a.2 ∨ (b.2 = a.2 ∧ T a b).

(** * The operations as they run

    The functions above are values-in, values-out.  The source works on
    JavaScript objects: arrays, a plain object, a [Set] and a [Map] live in a
    store, are reached by reference and are changed in place by [push],
    [set], [add], [sort] and property assignment; reading a property of
    [undefined], or spreading it, throws a [TypeError].  This layer keeps
    both: an operation is a function of the store that returns a value and
    the store after it, or throws. *)

Module Runtime.

(** A reference to an object: its position in the store. *)
Abbreviation loc := nat (only parsing).

(** The [data] object of an entry as it is at run time: a field the loader
    did not supply is [undefined], here [None]; [tags] refers to an array. *)
Record DataObject := {
  o_draft : option bool;
  o_publishDate : option Date;
  o_tags : option loc;
}.

Record EntryObject := {
  o_id : string;
  o_data : DataObject;
}.

(** The objects the module reads, creates and changes in place. *)
Inductive object :=
| PostArray (posts : list EntryObject)
| StringArray (strings : list string)
| PairArray (pairs : list (string * Z))
| YearRecord (buckets : gmap Z loc)
| TagSet (elements : list string)
| TagMap (entries : list (string * Z)).

(** Objects are allocated at the end of the store and never freed. *)
Abbreviation heap := (list object) (only parsing).

Inductive error := TypeError.

Inductive result (A : Type) :=
| Ok (a : A)
| Throw (e : error).
Arguments Ok {A} a.
Arguments Throw {A} e.

Definition M (A : Type) : Type := heap → result (A * heap).

#[global] Instance M_ret : MRet M := λ A a h, Ok (a, h).

#[global] Instance M_bind : MBind M := λ A B k c h,
  match c h with
  | Ok (a, h') => k a h'
  | Throw e => Throw e
  end.

Definition throw {A} : M A := λ _, Throw TypeError.

(** A new object, at a reference no object had before. *)
Definition alloc (o : object) : M loc := λ h, Ok (length h, h ++ [o]).

(** Reading and overwriting the object behind a reference.  A reference to
    nothing, which JavaScript cannot form, counts as an error. *)
Definition load (l : loc) : M object := λ h,
  match h !! l with
  | Some o => Ok (o, h)
  | None => Throw TypeError
  end.

Definition store (l : loc) (o : object) : M unit := λ h,
  match h !! l with
  | Some _ => Ok (tt, <[l := o]> h)
  | None => Throw TypeError
  end.

(** Using a value that is [undefined] as an object or an iterable. *)
Definition defined {A} (field : option A) : M A :=
  match field with
  | Some a => mret a
  | None => throw
  end.

(** Using an object as an array of posts, an array of strings, and so on;
    an object of another kind is an error. *)
Definition load_posts (l : loc) : M (list EntryObject) :=
  o ← load l; match o with PostArray ps => mret ps | _ => throw end.

Definition load_strings (l : loc) : M (list string) :=
  o ← load l; match o with StringArray ts => mret ts | _ => throw end.

Definition load_pairs (l : loc) : M (list (string * Z)) :=
  o ← load l; match o with PairArray ps => mret ps | _ => throw end.

Definition load_record (l : loc) : M (gmap Z loc) :=
  o ← load l; match o with YearRecord bs => mret bs | _ => throw end.

Definition load_set (l : loc) : M (list string) :=
  o ← load l; match o with TagSet s => mret s | _ => throw end.

Definition load_map (l : loc) : M (list (string * Z)) :=
  o ← load l; match o with TagMap m => mret m | _ => throw end.

(** A callback run on each element in turn, left to right. *)
Fixpoint for_each {A} (l : list A) (body : A → M unit) : M unit :=
  match l with
  | [] => mret tt
  | a :: l' => body a;; for_each l' body
  end.

(** JavaScript truthiness of a boolean field: [undefined] is falsy. *)
Definition truthy (field : option bool) : bool := default false field.

Fixpoint filter_entries (f : EntryObject → M bool) (l : list EntryObject)
    : M (list EntryObject) :=
  match l with
  | [] => mret []
  | e :: l' =>
      keep ← f e;
      rest ← filter_entries f l';
      mret (if keep : bool then e :: rest else rest)
  end.

(** [getCollection]: the callback is run on each entry of the collection and
    the entries it accepts are returned in a new array. *)
Definition getCollection (collection : loc) (f : EntryObject → M bool) : M loc :=
  es ← load_posts collection;
  kept ← filter_entries f es;
  alloc (PostArray kept).

(** The callback [({ id, data }) => ...]; [!data.draft] is [true] on a
    missing [draft]. *)
Definition getAllPosts_filter (PROD : bool) (entry : EntryObject) : M bool :=
  if PROD then
    let isDemo := startsWith (o_id entry) "demo/" in
    mret (negb (truthy (o_draft (o_data entry))) && negb isDemo)
  else
    mret (negb (truthy (o_draft (o_data entry)))).

Definition getAllPosts (PROD : bool) (collection : loc) : M loc :=
  getCollection collection (getAllPosts_filter PROD).

(** The reducer: [post.data.publishDate.getFullYear()] throws on a missing
    date; [if (!acc[year]) acc[year] = []] stores a reference to a new array
    in the plain object; [acc[year]?.push(post)] changes that array in
    place. *)
Definition groupPostsByYear_step (acc : loc) (post : EntryObject) : M unit :=
  date ← defined (o_publishDate (o_data post));
  let year := getFullYear date in
  buckets ← load_record acc;
  match buckets !! year with
  | None =>
      fresh ← alloc (PostArray []);
      store acc (YearRecord (<[year := fresh]> buckets))
  | Some _ => mret tt
  end;;
  buckets ← load_record acc;
  match buckets !! year with
  | Some bucket =>
      ps ← load_posts bucket;
      store bucket (PostArray (ps ++ [post]))
  | None => mret tt
  end.

(** [posts.reduce(reducer, {})] returns the plain object it started from. *)
Definition groupPostsByYear (posts : loc) : M loc :=
  ps ← load_posts posts;
  acc ← alloc (YearRecord ∅);
  for_each ps (groupPostsByYear_step acc);;
  mret acc.

(** [[...array]]: a new array with the same elements. *)
Definition spread_strings (l : loc) : M loc :=
  ts ← load_strings l;
  alloc (StringArray ts).

(** [flatMap] runs the callback on a post and appends the elements of the
    array it returns to the result. *)
Definition getAllTags_step (out : loc) (post : EntryObject) : M unit :=
  t ← defined (o_tags (o_data post));
  copy ← spread_strings t;
  part ← load_strings copy;
  sofar ← load_strings out;
  store out (StringArray (sofar ++ part)).

Definition getAllTags (posts : loc) : M loc :=
  ps ← load_posts posts;
  out ← alloc (StringArray []);
  for_each ps (getAllTags_step out);;
  mret out.

(** [new Set(iterable)] adds the elements to a new set one by one; the
    spread copies the elements of the set into a new array. *)
Definition getUniqueTags (posts : loc) : M loc :=
  all ← getAllTags posts;
  ts ← load_strings all;
  set ← alloc (TagSet []);
  for_each ts (λ t, s ← load_set set; store set (TagSet (Set_add s t)));;
  s ← load_set set;
  alloc (StringArray s).

(** The reducer changes the new [Map] in place and returns it; the spread
    copies its entries into a new array, which [sort] then sorts in place
    and returns. *)
Definition getUniqueTagsWithCount (posts : loc) : M loc :=
  all ← getAllTags posts;
  ts ← load_strings all;
  acc ← alloc (TagMap []);
  for_each ts (λ t, m ← load_map acc; store acc (TagMap (count_step m t)));;
  m ← load_map acc;
  arr ← alloc (PairArray m);
  a ← load_pairs arr;
  store arr (PairArray (Array_sort by_count_desc a));;
  mret arr.

End Runtime.

(** ** Well-formed input *)

(** An entry object carries its required fields and stands for the article
    [e]: [draft] and [publishDate] are defined and [tags] refers to an array
    of strings in the store. *)
Definition entry_in (h : Runtime.heap) (o : Runtime.EntryObject)
    (e : CollectionEntry) : Prop :=
  Runtime.o_id o = id e ∧
  Runtime.o_draft (Runtime.o_data o) = Some (draft (data e)) ∧
  Runtime.o_publishDate (Runtime.o_data o) = Some (publishDate (data e)) ∧
  ∃ t, Runtime.o_tags (Runtime.o_data o) = Some t ∧
       h !! t = Some (Runtime.StringArray (tags (data e))).

(** The array at [l] holds well-formed entries that stand for [es]. *)
Definition represents (h : Runtime.heap) (l : Runtime.loc)
    (es : list CollectionEntry) : Prop :=
  ∃ os, h !! l = Some (Runtime.PostArray os) ∧ Forall2 (entry_in h) os es.

(** The plain object at [l] has one bucket array for each key of [m] and no
    other property. *)
Definition represents_index (h : Runtime.heap) (l : Runtime.loc)
    (m : gmap Z (list CollectionEntry)) : Prop :=
  ∃ buckets, h !! l = Some (Runtime.YearRecord buckets) ∧
    ∀ y, match m !! y with
         | Some b => ∃ r, buckets !! y = Some r ∧ represents h r b
         | None => buckets !! y = None
         end.

(** The operation returns, leaves every object that was in the store as it
    was, and its value and the store after it satisfy [Q]. *)
Definition returns {A} (c : Runtime.M A) (h : Runtime.heap)
    (Q : A → Runtime.heap → Prop) : Prop :=
  ∃ a h', c h = Runtime.Ok (a, h') ∧ h `prefix_of` h' ∧ Q a h'.

(** The buckets of the plain object during the reduction: each is an array
    allocated by the reduction, no two keys share one, and they hold the
    posts that the reduction on values has filed so far. *)
Definition buckets_hold (h0 hx : list Runtime.object) (buckets : gmap Z nat)
    (filed : gmap Z (list CollectionEntry)) : Prop :=
  (∀ y r, buckets !! y = Some r → (length h0 < r)%nat) ∧
  (∀ y1 y2 r, buckets !! y1 = Some r → buckets !! y2 = Some r → y1 = y2) ∧
  (∀ y, match filed !! y with
        | Some b => ∃ r os, buckets !! y = Some r ∧
                            hx !! r = Some (Runtime.PostArray os) ∧
                            Forall2 (entry_in h0) os b
        | None => buckets !! y = None
        end).

(** ** Sample inputs *)

(** An article that carries the tag ["a"] twice. *)
Definition post_tagged_twice : CollectionEntry :=
  {| id := "notes/a";
     data := {| draft := false;
                publishDate := {| getFullYear := 2025 |};
                tags := ["a"; "a"] |} |}.

(** An article with the given path and tags. *)
Definition tagged (path : string) (ts : list string) : CollectionEntry :=
  {| id := path;
     data := {| draft := false;
                publishDate := {| getFullYear := 2025 |};
                tags := ts |} |}.

(** Three articles tagged [a b], [b] and [a]. *)
Definition three_posts : list CollectionEntry :=
  [tagged "one" ["a"; "b"]; tagged "two" ["b"]; tagged "three" ["a"]].

(** A store with one array of two well-formed entries. *)
Definition sample_heap : list Runtime.object :=
  [ Runtime.StringArray ["a"; "b"];
    Runtime.StringArray ["b"];
    Runtime.PostArray
      [ {| Runtime.o_id := "demo/one";
           Runtime.o_data := {| Runtime.o_draft := Some false;
                                Runtime.o_publishDate := Some {| getFullYear := 2024 |};
                                Runtime.o_tags := Some 0%nat |} |};
        {| Runtime.o_id := "notes/two";
           Runtime.o_data := {| Runtime.o_draft := Some true;
                                Runtime.o_publishDate := Some {| getFullYear := 2025 |};
                                Runtime.o_tags := Some 1%nat |} |} ] ].

Definition sample_posts : list CollectionEntry :=
  [ {| id := "demo/one";
       data := {| draft := false; publishDate := {| getFullYear := 2024 |};
                  tags := ["a"; "b"] |} |};
    {| id := "notes/two";
       data := {| draft := true; publishDate := {| getFullYear := 2025 |};
                  tags := ["b"] |} |} ].

(** ** Partly formed input and new objects *)

(** The [tags] field of an entry object, when it is there, refers to an
    array of strings. *)
Definition tags_field_ok (h : list Runtime.object) (eo : Runtime.EntryObject)
    : Prop :=
  match Runtime.o_tags (Runtime.o_data eo) with
  | Some t => ∃ ts, h !! t = Some (Runtime.StringArray ts)
  | None => True
  end.

(** The store never shrinks under the operation. *)
Definition grows {A} (c : Runtime.M A) : Prop :=
  ∀ h a h', c h = Runtime.Ok (a, h') → (length h ≤ length h')%nat.

(** The operation, when it returns, returns [r], and the store has not
    shrunk. *)
Definition keeps {A} (r : A) (c : Runtime.M A) : Prop :=
  ∀ h a h', c h = Runtime.Ok (a, h') → a = r ∧ (length h ≤ length h')%nat.

(** The operation, when it returns, returns a reference to an object that
    was not in the store before. *)
Definition allocates (c : Runtime.M nat) : Prop :=
  ∀ h r h', c h = Runtime.Ok (r, h') → (length h ≤ r < length h')%nat.

(** Two entry objects: the first without [draft], the second with neither
    [publishDate] nor [tags]. *)
Definition partial_entries : list Runtime.EntryObject :=
  [ {| Runtime.o_id := "notes/one";
       Runtime.o_data := {| Runtime.o_draft := None;
                            Runtime.o_publishDate := Some {| getFullYear := 2024 |};
                            Runtime.o_tags := Some 0%nat |} |};
    {| Runtime.o_id := "demo/two";
       Runtime.o_data := {| Runtime.o_draft := Some false;
                            Runtime.o_publishDate := None;
                            Runtime.o_tags := None |} |} ].

(** A store with these two entries in the array at reference 1. *)
Definition partial_heap : list Runtime.object :=
  [ Runtime.StringArray ["a"]; Runtime.PostArray partial_entries ].

(** * The model on small inputs *)

Example startsWith_demo :
  startsWith "demo/intro" "demo/" = true ∧
  startsWith "demonstration" "demo/" = false ∧
  startsWith "notes/demo/x" "demo/" = false.
Proof. repeat split. Qed.

Example getAllPosts_sample :
  getAllPosts true sample_posts = [] ∧
  id <$> getAllPosts false sample_posts = ["demo/one"].
Proof. split; reflexivity. Qed.

Example getUniqueTags_sample :
  getUniqueTags [tagged "x" ["b"; "a"; "a"; "b"]; tagged "y" ["c"; "a"]] =
  ["b"; "a"; "c"].
Proof. reflexivity. Qed.

(** The greater count comes first; equal counts keep the order in which the
    tags were first met. *)
Example getUniqueTagsWithCount_sample :
  getUniqueTagsWithCount
    [tagged "x" ["a"; "b"; "b"]; tagged "y" ["c"; "c"; "c"; "a"]] =
  [("c", 3); ("a", 2); ("b", 2)] ∧
  getUniqueTagsWithCount [tagged "x" ["b"; "a"; "a"; "b"]] =
  [("b", 2); ("a", 2)].
Proof. split; reflexivity. Qed.

(** On the sample store the ranking is a new array, the eighth object, and
    the three objects that were there are the first three still. *)
Example run_getUniqueTagsWithCount_sample :
  ∃ h', Runtime.getUniqueTagsWithCount 2%nat sample_heap = Runtime.Ok (7%nat, h') ∧
        h' !! 7%nat = Some (Runtime.PairArray [("b", 2); ("a", 1)]) ∧
        take 3 h' = sample_heap.
Proof. eexists. split; [reflexivity|]. split; reflexivity. Qed.

(** * The visibility filter *)

Lemma getAllPosts_elem PROD collection p :
  p ∈ getAllPosts PROD collection ↔
  p ∈ collection ∧ getAllPosts_filter PROD p = true.
Proof.
  unfold getAllPosts, getCollection.
  rewrite !list_elem_of_In, filter_In. reflexivity.
Qed.

(** C1. In production mode the output of the visibility filter holds no
    article with [draft = true] and no article whose path starts with the
    demo prefix ["demo/"]. *)
Theorem getAllPosts_production_hides_drafts_and_demos
    (collection : list CollectionEntry) :
  Forall (λ p, draft (data p) = false ∧ startsWith (id p) "demo/" = false)
         (getAllPosts true collection).
Proof.
  apply Forall_forall. intros p Hp.
  apply getAllPosts_elem in Hp as [_ Hf].
  unfold getAllPosts_filter in Hf. cbn zeta in Hf.
  apply andb_prop in Hf as [Hd Hdemo].
  split; [apply negb_true_iff, Hd | apply negb_true_iff, Hdemo].
Qed.

(** C2. In development mode the output of the visibility filter is the input
    sequence with exactly the drafts removed, in input order; an article that
    is not a draft is kept whether or not it lies under the demo prefix. *)
Theorem getAllPosts_development_removes_exactly_drafts
    (collection : list CollectionEntry) :
  getAllPosts false collection = without_drafts collection ∧
  sublist (getAllPosts false collection) collection ∧
  (∀ p, p ∈ getAllPosts false collection ↔
        p ∈ collection ∧ draft (data p) = false) ∧
  (∀ p, p ∈ collection → draft (data p) = false →
        startsWith (id p) "demo/" = true →
        p ∈ getAllPosts false collection).
Proof.
  assert (Heq : getAllPosts false collection = without_drafts collection).
  { unfold getAllPosts, getCollection, getAllPosts_filter.
    induction collection as [|p l IH]; [reflexivity|].
    cbn. rewrite IH. destruct (draft (data p)); reflexivity. }
  assert (Hin : ∀ p, p ∈ getAllPosts false collection ↔
                     p ∈ collection ∧ draft (data p) = false).
  { intros p. rewrite getAllPosts_elem. unfold getAllPosts_filter.
    rewrite negb_true_iff. reflexivity. }
  split; [exact Heq|]. split; [|split; [exact Hin|]].
  - rewrite Heq. clear Heq Hin.
    induction collection as [|p l IH]; cbn; [constructor|].
    destruct (draft (data p)); [by apply sublist_cons | by apply sublist_skip].
  - intros p Hp Hd _. apply Hin. by split.
Qed.

(** * The year index *)

Section year_index.
Implicit Types (acc : gmap Z (list CollectionEntry)) (post : CollectionEntry).
Implicit Types (posts : list CollectionEntry) (y : Z).

(** What one step of the reduction does to the bucket of each year. *)
Lemma groupPostsByYear_step_lookup acc post y :
  groupPostsByYear_step acc post !! y =
    if decide (year_of post = y)
    then Some (default [] (acc !! y) ++ [post])
    else acc !! y.
Proof.
  unfold groupPostsByYear_step, year_of. cbn zeta.
  set (yr := getFullYear (publishDate (data post))).
  destruct (decide (yr = y)) as [->|Hne].
  - rewrite lookup_alter_eq.
    destruct (acc !! y) as [b|] eqn:Hy; [by rewrite Hy|].
    by rewrite lookup_insert_eq.
  - rewrite lookup_alter_ne by done.
    destruct (acc !! yr); [done|]. by rewrite lookup_insert_ne.
Qed.

Lemma groupPostsByYear_fold_lookup posts acc y :
  fold_left groupPostsByYear_step posts acc !! y =
    match published_in y posts with
    | [] => acc !! y
    | b => Some (default [] (acc !! y) ++ b)
    end.
Proof.
  unfold published_in.
  revert acc. induction posts as [|p l IH]; intros acc; [done|].
  cbn [fold_left]. rewrite IH, groupPostsByYear_step_lookup, filter_cons.
  destruct (decide (year_of p = y)) as [Hy|Hy]; [|done].
  cbn. destruct (filter _ l); [done|]. by rewrite <- app_assoc.
Qed.

(** The bucket of a year is the input restricted to that year, and it is
    there only when that restriction is not empty. *)
Lemma groupPostsByYear_lookup posts y :
  groupPostsByYear posts !! y =
    match published_in y posts with
    | [] => None
    | b => Some b
    end.
Proof.
  unfold groupPostsByYear. rewrite groupPostsByYear_fold_lookup.
  by rewrite lookup_empty.
Qed.

(** One step adds its post, and nothing else, to the bucket contents. *)
Lemma bucket_contents_step acc post :
  bucket_contents (groupPostsByYear_step acc post) ≡ₚ
  bucket_contents acc ++ [post].
Proof.
  unfold groupPostsByYear_step, bucket_contents. cbn zeta.
  set (yr := getFullYear (publishDate (data post))).
  destruct (acc !! yr) as [b|] eqn:Hy.
  - rewrite <- (insert_delete_id acc yr b Hy) at 2.
    assert (alter (λ bucket, bucket ++ [post]) yr acc =
            <[yr := b ++ [post]]> (delete yr acc)) as ->.
    { apply map_eq. intros j. destruct (decide (yr = j)) as [<-|Hne].
      - by rewrite lookup_alter_eq, Hy, lookup_insert_eq.
      - by rewrite lookup_alter_ne, lookup_insert_ne, lookup_delete_ne. }
    rewrite !map_to_list_insert by apply lookup_delete_eq.
    cbn. rewrite <- !app_assoc. apply Permutation_app_head, Permutation_app_comm.
  - rewrite alter_insert_eq, map_to_list_insert by done.
    cbn. apply Permutation_cons_append.
Qed.

Lemma bucket_contents_fold posts acc :
  bucket_contents (fold_left groupPostsByYear_step posts acc) ≡ₚ
  bucket_contents acc ++ posts.
Proof.
  revert acc. induction posts as [|p l IH]; intros acc; cbn [fold_left].
  - by rewrite app_nil_r.
  - rewrite IH, bucket_contents_step, <- app_assoc. done.
Qed.
End year_index.

(** Two articles of 2024 and one of 2023 give the keys 2023 and 2024, the
    two of 2024 in input order. *)
Example groupPostsByYear_sample (a b c : CollectionEntry) :
  year_of a = 2024 → year_of b = 2023 → year_of c = 2024 →
  groupPostsByYear [a; b; c] !! 2024 = Some [a; c] ∧
  groupPostsByYear [a; b; c] !! 2023 = Some [b] ∧
  groupPostsByYear [a; b; c] !! 2022 = None.
Proof.
  intros Ha Hb Hc. rewrite !groupPostsByYear_lookup. unfold published_in.
  rewrite !filter_cons, Ha, Hb, Hc. done.
Qed.

(** C3. [groupPostsByYear] partitions its input exactly: the bucket under a
    key is the input restricted to the articles of that year, in input order,
    and is never empty; every input article lies in the bucket of its own
    year and in no bucket of another year; and all the buckets together hold
    the input articles, each as many times as the input does. *)
Theorem groupPostsByYear_partitions (posts : list CollectionEntry) :
  (∀ y b, groupPostsByYear posts !! y = Some b →
          b = published_in y posts ∧ b ≠ []) ∧
  (∀ p, p ∈ posts →
        ∃ b, groupPostsByYear posts !! year_of p = Some b ∧ p ∈ b) ∧
  (∀ p y b, groupPostsByYear posts !! y = Some b → p ∈ b →
            y = year_of p ∧ p ∈ posts) ∧
  bucket_contents (groupPostsByYear posts) ≡ₚ posts.
Proof.
  assert (Hb : ∀ y b, groupPostsByYear posts !! y = Some b →
                      b = published_in y posts ∧ b ≠ []).
  { intros y b. rewrite groupPostsByYear_lookup.
    destruct (published_in y posts) eqn:E; [done|].
    intros [= <-]. done. }
  split; [exact Hb|]. split; [|split].
  - intros p Hp. rewrite groupPostsByYear_lookup.
    assert (Hin : p ∈ published_in (year_of p) posts).
    { unfold published_in. by apply list_elem_of_filter. }
    destruct (published_in (year_of p) posts) eqn:E.
    + by apply not_elem_of_nil in Hin.
    + eexists. split; [done|]. done.
  - intros p y b Hy Hp. apply Hb in Hy as [-> _].
    unfold published_in in Hp. apply list_elem_of_filter in Hp as [? ?]. done.
  - unfold groupPostsByYear. rewrite bucket_contents_fold.
    unfold bucket_contents. by rewrite map_to_list_empty.
Qed.

(** * The flattened tag list *)

Lemma getAllTags_cons p posts :
  getAllTags (p :: posts) = tags (data p) ++ getAllTags posts.
Proof. reflexivity. Qed.

Lemma getAllTags_app posts1 posts2 :
  getAllTags (posts1 ++ posts2) = getAllTags posts1 ++ getAllTags posts2.
Proof. unfold getAllTags. apply flat_map_app. Qed.

(** C4. [getAllTags] is the concatenation of the tag lists in article order,
    each list as it stands, duplicates included; its length is the sum of the
    lengths of the tag lists; and an article without tags contributes
    nothing. *)
Theorem getAllTags_flattens (posts : list CollectionEntry) :
  getAllTags posts = concat ((λ p, tags (data p)) <$> posts) ∧
  length (getAllTags posts) = sum_list ((λ p, length (tags (data p))) <$> posts) ∧
  (∀ before p after, posts = before ++ p :: after →
     getAllTags posts = getAllTags before ++ tags (data p) ++ getAllTags after) ∧
  (∀ before p after, posts = before ++ p :: after → tags (data p) = [] →
     getAllTags posts = getAllTags (before ++ after)).
Proof.
  split; [|split; [|split]].
  - induction posts as [|p l IH]; [done|].
    rewrite getAllTags_cons, IH. done.
  - induction posts as [|p l IH]; [done|].
    rewrite getAllTags_cons, length_app, IH. done.
  - intros before p after ->. by rewrite getAllTags_app, getAllTags_cons.
  - intros before p after -> Hnil.
    by rewrite !getAllTags_app, getAllTags_cons, Hnil.
Qed.

(** * The tag vocabulary *)

Section first_occurrence.
Implicit Types (l s : list string) (t x : string).

Lemma first_index_elem l t : t ∈ l → (first_index l t < length l)%nat.
Proof.
  induction l as [|y l IH]; cbn; [by intros ?%not_elem_of_nil|].
  intros Hin. destruct (decide (y = t)); [lia|].
  apply elem_of_cons in Hin as [->|Hin]; [done|]. apply IH in Hin. lia.
Qed.

Lemma first_index_app_l l l' t :
  t ∈ l → first_index (l ++ l') t = first_index l t.
Proof.
  induction l as [|y l IH]; cbn; [by intros ?%not_elem_of_nil|].
  intros Hin. destruct (decide (y = t)); [done|].
  apply elem_of_cons in Hin as [->|Hin]; [done|]. by rewrite IH.
Qed.

Lemma first_index_app_r l l' t :
  t ∉ l → first_index (l ++ l') t = (length l + first_index l' t)%nat.
Proof.
  induction l as [|y l IH]; cbn; [done|].
  intros Hin. apply not_elem_of_cons in Hin as [? ?].
  destruct (decide (y = t)); [congruence|]. by rewrite IH.
Qed.

(** A sorted list stays sorted for a relation that agrees on its elements. *)
Lemma StronglySorted_on_elements {A} (R R' : relation A) (k : list A) :
  (∀ a b, a ∈ k → b ∈ k → R a b → R' a b) →
  StronglySorted R k → StronglySorted R' k.
Proof.
  induction k as [|a k IH]; intros HR Hs; [constructor|].
  apply StronglySorted_inv in Hs as [Hs Hall]. constructor.
  - apply IH; [|done]. intros ????. apply HR; by apply elem_of_cons; right.
  - apply Forall_forall. intros b Hb. apply HR.
    + by apply elem_of_cons; left.
    + by apply elem_of_cons; right.
    + by eapply Forall_forall in Hall.
Qed.

Lemma Set_new_snoc l t : Set_new (l ++ [t]) = Set_add (Set_new l) t.
Proof. unfold Set_new. by rewrite fold_left_app. Qed.

Lemma elem_of_Set_add s t x : x ∈ Set_add s t ↔ x ∈ s ∨ x = t.
Proof.
  unfold Set_add. case_bool_decide as Hin.
  - split; [by left|]. by intros [?| ->].
  - rewrite elem_of_app, list_elem_of_singleton. done.
Qed.

Lemma elem_of_Set_new l x : x ∈ Set_new l ↔ x ∈ l.
Proof.
  induction l as [|t l IH] using rev_ind; [done|].
  rewrite Set_new_snoc, elem_of_Set_add, IH, elem_of_app,
    list_elem_of_singleton. done.
Qed.

Lemma NoDup_Set_new l : NoDup (Set_new l).
Proof.
  induction l as [|t l IH] using rev_ind; [constructor|].
  rewrite Set_new_snoc. unfold Set_add. case_bool_decide as Hin; [done|].
  apply NoDup_app. split; [done|]. split; [|apply NoDup_singleton].
  intros x Hx ->%list_elem_of_singleton. done.
Qed.

Lemma Set_new_first_occurrence_order l :
  StronglySorted (first_seen_before l) (Set_new l).
Proof.
  induction l as [|t l IH] using rev_ind; [constructor|].
  rewrite Set_new_snoc.
  assert (Hmono : StronglySorted (first_seen_before (l ++ [t])) (Set_new l)).
  { revert IH. apply StronglySorted_on_elements.
    intros a b Ha Hb. rewrite elem_of_Set_new in Ha, Hb.
    unfold first_seen_before. by rewrite !first_index_app_l. }
  unfold Set_add. case_bool_decide as Hin; [done|].
  apply StronglySorted_app. split; [|split; [done|repeat constructor]].
  intros a b Ha ->%list_elem_of_singleton.
  rewrite elem_of_Set_new in Ha, Hin. unfold first_seen_before.
  rewrite first_index_app_l, first_index_app_r by done.
  apply first_index_elem in Ha. lia.
Qed.
End first_occurrence.

(** C5. [getUniqueTags] is the distinct tags of [getAllTags] in the order of
    their first occurrence: no value is repeated, it has the same elements as
    [getAllTags], and a tag stands before another exactly as its first
    occurrence in [getAllTags] does. *)
Theorem getUniqueTags_distinct_in_first_occurrence_order
    (posts : list CollectionEntry) :
  NoDup (getUniqueTags posts) ∧
  (∀ t, t ∈ getUniqueTags posts → t ∈ getAllTags posts) ∧
  (∀ t, t ∈ getAllTags posts → t ∈ getUniqueTags posts) ∧
  StronglySorted (first_seen_before (getAllTags posts)) (getUniqueTags posts).
Proof.
  unfold getUniqueTags. split; [apply NoDup_Set_new|].
  split; [intros t; by rewrite elem_of_Set_new|].
  split; [intros t; by rewrite elem_of_Set_new|].
  apply Set_new_first_occurrence_order.
Qed.

(** * The sort *)

Section sort_facts.
Context {A : Type} (compareFn : A → A → Z).

Lemma sort_insert_Permutation a l : sort_insert compareFn a l ≡ₚ a :: l.
Proof.
  induction l as [|b l IH]; cbn; [done|].
  destruct (compareFn a b <=? 0); [done|].
  rewrite IH. apply Permutation_swap.
Qed.

Lemma Array_sort_Permutation l : Array_sort compareFn l ≡ₚ l.
Proof.
  induction l as [|a l IH]; cbn; [done|].
  by rewrite sort_insert_Permutation, IH.
Qed.

(** Stability: the elements of a class whose members never compare as
    "after" one another keep their relative order. *)
Lemma sort_insert_filter (P : A → Prop) `{!∀ x, Decision (P x)} a l :
  (∀ b, b ∈ l → P a → P b → compareFn a b ≤ 0) →
  filter P (sort_insert compareFn a l) = filter P (a :: l).
Proof.
  induction l as [|b l IH]; intros Hcls; cbn [sort_insert]; [done|].
  destruct (Z.leb_spec (compareFn a b) 0) as [Hle|Hgt]; [done|].
  rewrite filter_cons, IH, !(filter_cons _ a), (filter_cons _ b).
  - destruct (decide (P a)) as [Ha|Ha]; [|done].
    destruct (decide (P b)) as [Hb|Hb]; [|done].
    specialize (Hcls b (list_elem_of_here _ _) Ha Hb). lia.
  - intros c Hc. apply Hcls. by apply list_elem_of_further.
Qed.

Lemma Array_sort_stable (P : A → Prop) `{!∀ x, Decision (P x)} l :
  (∀ a b, P a → P b → compareFn a b ≤ 0) →
  filter P (Array_sort compareFn l) = filter P l.
Proof.
  intros Hcls. induction l as [|a l IH]; cbn [Array_sort foldr]; [done|].
  rewrite sort_insert_filter by (intros; by apply Hcls).
  fold (Array_sort compareFn l). by rewrite !filter_cons, IH.
Qed.
End sort_facts.

(** Sorting by count, descending: entries of the input that were in the
    order [T] come out in the order "greater count first, and [T] among
    equal counts". *)
Section sort_by_count.
Context (T : relation (string * Z)).

Lemma sort_insert_count_then a l :
  Forall (T a) l →
  StronglySorted (count_then T) l →
  StronglySorted (count_then T) (sort_insert by_count_desc a l).
Proof.
  induction l as [|b l IH]; intros HT Hs; cbn [sort_insert].
  { repeat constructor. }
  apply Forall_cons in HT as [HTb HTl].
  apply StronglySorted_inv in Hs as [Hs Hb].
  unfold by_count_desc at 1.
  destruct (Z.leb_spec (b.2 - a.2) 0) as [Hle|Hgt].
  - constructor; [by constructor|].
    rewrite Forall_forall in Hb, HTl.
    apply Forall_cons. split.
    + unfold count_then. destruct (decide (b.2 = a.2)); [by right|left; lia].
    + apply Forall_forall. intros c Hc.
      specialize (Hb c Hc). specialize (HTl c Hc). unfold count_then in *.
      destruct (decide (c.2 = a.2)); [by right|left; lia].
  - constructor; [by apply IH|].
    rewrite sort_insert_Permutation. apply Forall_cons. split; [|done].
    left. lia.
Qed.

Lemma Array_sort_count_then l :
  StronglySorted T l →
  StronglySorted (count_then T) (Array_sort by_count_desc l).
Proof.
  induction l as [|a l IH]; intros Hs; cbn [Array_sort foldr].
  { constructor. }
  apply StronglySorted_inv in Hs as [Hs Ha].
  apply sort_insert_count_then; [|by apply IH].
  fold (Array_sort by_count_desc l). by rewrite Array_sort_Permutation.
Qed.
End sort_by_count.

(** * The counting map *)

Section counting.
Implicit Types (m : list (string * Z)) (l : list string) (k t : string).

Lemma count_tags_snoc l t : count_tags (l ++ [t]) = count_step (count_tags l) t.
Proof. unfold count_tags. by rewrite fold_left_app. Qed.

Lemma Map_get_None m k : Map_get m k = None ↔ k ∉ m.*1.
Proof.
  induction m as [|[k' v'] m IH]; cbn.
  - split; [intros _; apply not_elem_of_nil|done].
  - rewrite not_elem_of_cons. case_bool_decide as Hk.
    + split; [done|]. intros [? _]. congruence.
    + rewrite IH. split; [done|]. by intros [_ ?].
Qed.

Lemma Map_get_Map_set m k v k' :
  Map_get (Map_set m k v) k' = if decide (k = k') then Some v else Map_get m k'.
Proof.
  induction m as [|[k0 v0] m IH]; cbn.
  - case_bool_decide; by case_decide.
  - case_bool_decide as Hk0; cbn.
    + subst k0. case_bool_decide; by case_decide.
    + rewrite IH. case_bool_decide; [|done]. subst k0. by case_decide.
Qed.

(** [set] keeps the key order of the map and appends a new key. *)
Lemma Map_set_keys m k v : (Map_set m k v).*1 = Set_add (m.*1) k.
Proof.
  unfold Set_add. induction m as [|[k' v'] m IH]; cbn; [done|].
  destruct (decide (k' = k)) as [->|Hk].
  - rewrite (bool_decide_true (k = k)) by done. cbn.
    rewrite bool_decide_true by (by left). done.
  - rewrite (bool_decide_false (k' = k)) by done. cbn. rewrite IH.
    destruct (decide (k ∈ m.*1)) as [Hin|Hin].
    + rewrite (bool_decide_true (k ∈ m.*1)) by done.
      rewrite bool_decide_true by (by right). done.
    + rewrite (bool_decide_false (k ∈ m.*1)) by done.
      rewrite bool_decide_false; [done|].
      intros [?|?]%elem_of_cons; congruence.
Qed.

(** The keys of the counting map are the distinct tags in the order of
    their first occurrence. *)
Lemma count_tags_keys l : (count_tags l).*1 = Set_new l.
Proof.
  induction l as [|t l IH] using rev_ind; [done|].
  rewrite count_tags_snoc, Set_new_snoc. unfold count_step.
  by rewrite Map_set_keys, IH.
Qed.

Lemma occurrences_snoc l x t :
  occurrences (l ++ [x]) t = occurrences l t + (if decide (x = t) then 1 else 0).
Proof.
  unfold occurrences. rewrite filter_app, length_app, filter_cons, filter_nil.
  case_decide; cbn; lia.
Qed.

Lemma occurrences_app l l' t :
  occurrences (l ++ l') t = occurrences l t + occurrences l' t.
Proof. unfold occurrences. rewrite filter_app, length_app. lia. Qed.

Lemma occurrences_nonneg l t : 0 ≤ occurrences l t.
Proof. unfold occurrences. lia. Qed.

Lemma occurrences_not_elem l t : t ∉ l → occurrences l t = 0.
Proof.
  unfold occurrences. induction l as [|x l IH]; [done|].
  intros [? ?]%not_elem_of_cons. rewrite filter_cons.
  case_decide; [congruence|]. by apply IH.
Qed.

Lemma occurrences_elem l t : t ∈ l → 1 ≤ occurrences l t.
Proof.
  unfold occurrences. induction l as [|x l IH]; [by intros ?%not_elem_of_nil|].
  rewrite filter_cons. case_decide; cbn; [lia|].
  intros [?|?]%elem_of_cons; [congruence|]. by apply IH.
Qed.

(** The value under a tag is the number of its occurrences so far. *)
Lemma Map_get_count_tags l t :
  Map_get (count_tags l) t =
    if decide (t ∈ l) then Some (occurrences l t) else None.
Proof.
  induction l as [|x l IH] using rev_ind.
  { cbn. case_decide as Hin; [|done]. by apply not_elem_of_nil in Hin. }
  rewrite count_tags_snoc. unfold count_step.
  rewrite Map_get_Map_set, occurrences_snoc.
  destruct (decide (x = t)) as [->|Hne].
  - rewrite (decide_True (P := t ∈ l ++ [t]))
      by (apply elem_of_app; right; by left).
    rewrite IH. destruct (decide (t ∈ l)); cbn; [done|].
    by rewrite occurrences_not_elem.
  - rewrite IH, Z.add_0_r. destruct (decide (t ∈ l)) as [Hin|Hin].
    + rewrite decide_True by (apply elem_of_app; by left). done.
    + rewrite decide_False; [done|].
      intros [?|?%list_elem_of_singleton]%elem_of_app; done.
Qed.

Lemma elem_of_Map_get m k v : NoDup (m.*1) → (k, v) ∈ m → Map_get m k = Some v.
Proof.
  induction m as [|[k' v'] m IH]; cbn; [by intros _ ?%not_elem_of_nil|].
  intros [Hk' Hnd]%NoDup_cons [[= <- <-]|Hin]%elem_of_cons.
  - by rewrite bool_decide_true.
  - rewrite bool_decide_false; [by apply IH|].
    intros ->. apply Hk'. apply list_elem_of_fmap. by exists (k, v).
Qed.

(** An entry of the counting map pairs a tag that occurs with the number
    of its occurrences. *)
Lemma elem_of_count_tags l t c :
  (t, c) ∈ count_tags l → t ∈ l ∧ c = occurrences l t.
Proof.
  intros Hin. apply elem_of_Map_get in Hin.
  - rewrite Map_get_count_tags in Hin. case_decide; naive_solver.
  - rewrite count_tags_keys. apply NoDup_Set_new.
Qed.

Lemma total_count_cons e m : total_count (e :: m) = e.2 + total_count m.
Proof. reflexivity. Qed.

Lemma total_count_count_step m t :
  total_count (count_step m t) = total_count m + 1.
Proof.
  unfold count_step. induction m as [|[k' v'] m IH]; [cbn; lia|].
  cbn [Map_get Map_set]. destruct (decide (k' = t)) as [->|Hne].
  - rewrite !bool_decide_true by done. rewrite !total_count_cons. cbn. lia.
  - rewrite !bool_decide_false by done. rewrite !total_count_cons, IH. lia.
Qed.

Lemma total_count_count_tags l :
  total_count (count_tags l) = Z.of_nat (length l).
Proof.
  induction l as [|t l IH] using rev_ind; [done|].
  rewrite count_tags_snoc, total_count_count_step, IH, length_app. cbn. lia.
Qed.

Lemma total_count_Permutation m m' : m ≡ₚ m' → total_count m = total_count m'.
Proof.
  induction 1 as [|e m1 m2 _ IH|e1 e2 m0|m1 m2 m3 _ IH1 _ IH2];
    rewrite ?total_count_cons; [done|lia|lia|congruence].
Qed.
End counting.

(** * The tag frequency ranking *)

Lemma StronglySorted_lookup {A} (R : relation A) (l : list A) i j a b :
  StronglySorted R l → l !! i = Some a → l !! j = Some b → (i < j)%nat → R a b.
Proof.
  intros Hs. revert i j. induction Hs as [|x l Hs IH Hx]; intros i j Hi Hj Hlt.
  { by rewrite lookup_nil in Hi. }
  destruct j as [|j]; [lia|]. cbn in Hj.
  destruct i as [|i]; cbn in Hi.
  - injection Hi as ->. rewrite Forall_forall in Hx.
    apply Hx. by eapply list_elem_of_lookup_2.
  - eapply IH; [done..|lia].
Qed.

Lemma StronglySorted_of_fmap {A B} (f : A → B) (R : relation B) (l : list A) :
  StronglySorted R (f <$> l) → StronglySorted (λ a b, R (f a) (f b)) l.
Proof.
  induction l as [|a l IH]; csimpl; intros Hs; [constructor|].
  apply StronglySorted_inv in Hs as [Hs Ha].
  constructor; [by apply IH|].
  rewrite Forall_forall in Ha. apply Forall_forall. intros b Hb.
  by apply Ha, list_elem_of_fmap_2.
Qed.

Lemma getUniqueTagsWithCount_Permutation posts :
  getUniqueTagsWithCount posts ≡ₚ count_tags (getAllTags posts).
Proof. apply Array_sort_Permutation. Qed.

(** The entries reach the sort in the order of first occurrence of their
    tags. *)
Lemma count_tags_first_occurrence_order l :
  StronglySorted (λ a b, first_seen_before l a.1 b.1) (count_tags l).
Proof.
  apply StronglySorted_of_fmap.
  rewrite count_tags_keys. apply Set_new_first_occurrence_order.
Qed.

Lemma getUniqueTagsWithCount_order posts :
  StronglySorted
    (count_then (λ a b, first_seen_before (getAllTags posts) a.1 b.1))
    (getUniqueTagsWithCount posts).
Proof. apply Array_sort_count_then, count_tags_first_occurrence_order. Qed.

Lemma occurrences_getAllTags_once posts t :
  (∀ p, p ∈ posts → occurrences (tags (data p)) t ≤ 1) →
  occurrences (getAllTags posts) t = articles_with_tag posts t.
Proof.
  unfold articles_with_tag.
  induction posts as [|p l IH]; intros Honce; [done|].
  rewrite getAllTags_cons, occurrences_app, filter_cons, IH.
  - specialize (Honce p (list_elem_of_here _ _)).
    destruct (decide (t ∈ tags (data p))) as [Hin|Hin]; cbn [length].
    + apply occurrences_elem in Hin. lia.
    + apply occurrences_not_elem in Hin. lia.
  - intros q Hq. apply Honce. by apply list_elem_of_further.
Qed.

(** C6, as stated, fails: for the single article tagged ["a"; "a"] the
    ranking pairs ["a"] with 2, while one article contains the tag. *)
Lemma getUniqueTagsWithCount_is_not_article_count :
  getUniqueTagsWithCount [post_tagged_twice] = [("a", 2)] ∧
  articles_with_tag [post_tagged_twice] "a" = 1 ∧
  ¬ (∀ posts t c, (t, c) ∈ getUniqueTagsWithCount posts →
                  c = articles_with_tag posts t).
Proof.
  split; [reflexivity|]. split; [reflexivity|].
  intros Hclaim.
  specialize (Hclaim [post_tagged_twice] "a" 2 (list_elem_of_here _ _)).
  discriminate Hclaim.
Qed.

(** C6, amended. The count paired with a tag in the output of
    [getUniqueTagsWithCount] is the number of occurrences of the tag in
    [getAllTags]; it is the number of articles whose tag list contains the
    tag whenever no article carries the tag more than once. *)
Theorem getUniqueTagsWithCount_counts_occurrences
    (posts : list CollectionEntry) (t : string) (c : Z) :
  (t, c) ∈ getUniqueTagsWithCount posts →
  t ∈ getAllTags posts ∧
  c = occurrences (getAllTags posts) t ∧
  ((∀ p, p ∈ posts → occurrences (tags (data p)) t ≤ 1) →
   c = articles_with_tag posts t).
Proof.
  rewrite getUniqueTagsWithCount_Permutation.
  intros [Hin ->]%elem_of_count_tags.
  split; [done|]. split; [done|]. apply occurrences_getAllTags_once.
Qed.

Lemma getUniqueTagsWithCount_counts_occurrences_witness :
  "a" ∈ getAllTags three_posts ∧
  2 = occurrences (getAllTags three_posts) "a" ∧
  ((∀ p, p ∈ three_posts → occurrences (tags (data p)) "a" ≤ 1) →
   2 = articles_with_tag three_posts "a").
Proof.
  apply (getUniqueTagsWithCount_counts_occurrences three_posts "a" 2).
  vm_compute. apply list_elem_of_here.
Defined.

(** C7. The counts of the ranking sum to the length of [getAllTags], and the
    ranking is sorted by count, non-increasing. *)
Theorem getUniqueTagsWithCount_total_and_sorted (posts : list CollectionEntry) :
  total_count (getUniqueTagsWithCount posts) =
    Z.of_nat (length (getAllTags posts)) ∧
  StronglySorted (λ a b, b.2 ≤ a.2) (getUniqueTagsWithCount posts).
Proof.
  split.
  - rewrite (total_count_Permutation _ _ (getUniqueTagsWithCount_Permutation posts)).
    apply total_count_count_tags.
  - generalize (getUniqueTagsWithCount_order posts).
    apply StronglySorted_on_elements.
    intros a b _ _ [Hlt|[Heq _]]; lia.
Qed.

(** C8. For three articles tagged [a b], [b] and [a], whatever their other
    fields, [getAllTags] is [a b b a], [getUniqueTags] is [a b] and
    [getUniqueTagsWithCount] is [(a, 2) (b, 2)]. *)
Theorem tag_views_example (p1 p2 p3 : string) (d1 d2 d3 : bool)
    (t1 t2 t3 : Date) :
  let posts :=
    [ {| id := p1; data := {| draft := d1; publishDate := t1;
                              tags := ["a"; "b"] |} |};
      {| id := p2; data := {| draft := d2; publishDate := t2;
                              tags := ["b"] |} |};
      {| id := p3; data := {| draft := d3; publishDate := t3;
                              tags := ["a"] |} |} ] in
  getAllTags posts = ["a"; "b"; "b"; "a"] ∧
  getUniqueTags posts = ["a"; "b"] ∧
  getUniqueTagsWithCount posts = [("a", 2); ("b", 2)].
Proof. repeat split; reflexivity. Qed.

(** C10. The order of the ranking is fixed, ties included.  The counting map
    lists its keys in the order of their first occurrence in [getAllTags];
    the sort leaves the entries of one count in the order they had in the
    map; so two entries of equal count stand in the order of first
    occurrence of their tags, and the ranking is the only arrangement of the
    map entries that is descending by count with ties in that order. *)
Theorem getUniqueTagsWithCount_tie_order (posts : list CollectionEntry) :
  let all := getAllTags posts in
  let ranking := getUniqueTagsWithCount posts in
  let first_tag_before := λ a b : string * Z, first_seen_before all a.1 b.1 in
  (count_tags all).*1 = getUniqueTags posts ∧
  (∀ c, filter (λ e, e.2 = c) ranking = filter (λ e, e.2 = c) (count_tags all)) ∧
  (∀ i j t1 t2 c,
     ranking !! i = Some (t1, c) → ranking !! j = Some (t2, c) → (i < j)%nat →
     first_seen_before all t1 t2) ∧
  (∀ other, other ≡ₚ count_tags all →
     StronglySorted (count_then first_tag_before) other → other = ranking).
Proof.
  intros all ranking first_tag_before.
  assert (Hsorted : StronglySorted (count_then first_tag_before) ranking)
    by apply getUniqueTagsWithCount_order.
  split; [apply count_tags_keys|]. split; [|split].
  - intros c. apply Array_sort_stable.
    intros a b Ha Hb. unfold by_count_desc. lia.
  - intros i j t1 t2 c Hi Hj Hlt.
    destruct (StronglySorted_lookup _ _ _ _ _ _ Hsorted Hi Hj Hlt)
      as [Hgt|[_ Hfirst]]; [cbn in Hgt; lia|exact Hfirst].
  - intros other Hperm Hother.
    apply (StronglySorted_unique_strong (count_then first_tag_before));
      [|done|done|].
    + intros a b _ _ [Hab|[Hab Tab]] [Hba|[Hba Tba]]; try lia.
      unfold first_tag_before, first_seen_before in Tab, Tba. lia.
    + rewrite Hperm. symmetry. apply getUniqueTagsWithCount_Permutation.
Qed.

(** ** Running the operations *)

Section running.
Import Runtime.
Implicit Types (h : heap) (l : loc) (o : object).

Lemma bind_Ok {A B} (c : M A) (k : A → M B) h a h' :
  c h = Ok (a, h') → (c ≫= k) h = k a h'.
Proof. unfold mbind, M_bind. by intros ->. Qed.

Lemma load_Ok h l o : h !! l = Some o → load l h = Ok (o, h).
Proof. unfold load. by intros ->. Qed.

Lemma store_Ok h l o o' : h !! l = Some o' → store l o h = Ok (tt, <[l := o]> h).
Proof. unfold store. by intros ->. Qed.

Lemma load_posts_Ok h l ps :
  h !! l = Some (PostArray ps) → load_posts l h = Ok (ps, h).
Proof. intros H. unfold load_posts. by rewrite (bind_Ok _ _ _ _ _ (load_Ok _ _ _ H)). Qed.

Lemma load_strings_Ok h l ts :
  h !! l = Some (StringArray ts) → load_strings l h = Ok (ts, h).
Proof. intros H. unfold load_strings. by rewrite (bind_Ok _ _ _ _ _ (load_Ok _ _ _ H)). Qed.

Lemma load_pairs_Ok h l ps :
  h !! l = Some (PairArray ps) → load_pairs l h = Ok (ps, h).
Proof. intros H. unfold load_pairs. by rewrite (bind_Ok _ _ _ _ _ (load_Ok _ _ _ H)). Qed.

Lemma load_record_Ok h l bs :
  h !! l = Some (YearRecord bs) → load_record l h = Ok (bs, h).
Proof. intros H. unfold load_record. by rewrite (bind_Ok _ _ _ _ _ (load_Ok _ _ _ H)). Qed.

Lemma load_set_Ok h l s : h !! l = Some (TagSet s) → load_set l h = Ok (s, h).
Proof. intros H. unfold load_set. by rewrite (bind_Ok _ _ _ _ _ (load_Ok _ _ _ H)). Qed.

Lemma load_map_Ok h l m : h !! l = Some (TagMap m) → load_map l h = Ok (m, h).
Proof. intros H. unfold load_map. by rewrite (bind_Ok _ _ _ _ _ (load_Ok _ _ _ H)). Qed.

(** A write to an object allocated after [h0] leaves [h0] as it was. *)
Lemma prefix_insert_fresh h0 h l o :
  h0 `prefix_of` h → (length h0 ≤ l)%nat → h0 `prefix_of` <[l := o]> h.
Proof.
  intros [k ->] Hl. rewrite insert_app_r_alt by done. by apply prefix_app_r.
Qed.

Lemma prefix_alloc h0 h o : h0 `prefix_of` h → h0 `prefix_of` h ++ [o].
Proof. intros. by apply prefix_app_r. Qed.

Lemma lookup_alloc h o : (h ++ [o]) !! length h = Some o.
Proof. by rewrite lookup_app_r, Nat.sub_diag. Qed.

Lemma lookup_alloc_old h o l o' : h !! l = Some o' → (h ++ [o]) !! l = Some o'.
Proof. intros. by apply lookup_app_l_Some. Qed.

Lemma entry_in_prefix h0 h eo e :
  h0 `prefix_of` h → entry_in h0 eo e → entry_in h eo e.
Proof.
  intros Hpre (Hid & Hd & Hp & t & Ht & Hts).
  repeat split; try done. exists t. split; [done|].
  by eapply prefix_lookup_Some.
Qed.

Lemma represents_prefix h0 h l es :
  h0 `prefix_of` h → represents h0 l es → represents h l es.
Proof.
  intros Hpre (os & Hl & Hos). exists os. split.
  - by eapply prefix_lookup_Some.
  - eapply Forall2_impl; [done|]. intros ??. by apply entry_in_prefix.
Qed.

(** A loop runs to its end when its body does and keeps an invariant over
    the elements still to come. *)
Lemma for_each_invariant {A} (I : list A → heap → Prop)
    (body : A → M unit) (todo : list A) h :
  I todo h →
  (∀ a rest h1, I (a :: rest) h1 → ∃ h2, body a h1 = Ok (tt, h2) ∧ I rest h2) →
  ∃ h', for_each todo body h = Ok (tt, h') ∧ I [] h'.
Proof.
  intros HI Hbody. revert h HI.
  induction todo as [|a rest IH]; intros h HI; cbn [for_each].
  - by exists h.
  - destruct (Hbody a rest h HI) as (h2 & Hrun & HI2).
    rewrite (bind_Ok _ _ _ _ _ Hrun). by apply IH.
Qed.

End running.

(** ** The flattened tag list, run *)

Lemma run_getAllTags_step h0 h out eo e sofar :
  h0 `prefix_of` h → (length h0 ≤ out)%nat →
  h !! out = Some (Runtime.StringArray sofar) →
  entry_in h0 eo e →
  ∃ h', Runtime.getAllTags_step out eo h = Runtime.Ok (tt, h') ∧
        h0 `prefix_of` h' ∧
        h' !! out = Some (Runtime.StringArray (sofar ++ tags (data e))).
Proof.
  intros Hpre Hfresh Hout (_ & _ & _ & t & Ht & Hts).
  assert (Hout_lt : (out < length h)%nat) by by eapply lookup_lt_Some.
  eapply prefix_lookup_Some in Hts; [|done].
  exists (<[out := Runtime.StringArray (sofar ++ tags (data e))]>
            (h ++ [Runtime.StringArray (tags (data e))])).
  split; [|split].
  - unfold Runtime.getAllTags_step, Runtime.spread_strings. rewrite Ht.
    rewrite (bind_Ok _ _ h t h eq_refl).
    rewrite (bind_Ok _ _ h (length h) (h ++ [Runtime.StringArray (tags (data e))])).
    2:{ rewrite (bind_Ok _ _ _ _ _ (load_strings_Ok _ _ _ Hts)). done. }
    rewrite (bind_Ok _ _ _ _ _ (load_strings_Ok _ _ _ (lookup_alloc _ _))).
    rewrite (bind_Ok _ _ _ _ _
               (load_strings_Ok _ _ _ (lookup_alloc_old _ _ _ _ Hout))).
    by eapply store_Ok, lookup_alloc_old.
  - apply prefix_insert_fresh; [by apply prefix_alloc|done].
  - apply list_lookup_insert_eq. rewrite length_app. lia.
Qed.

Lemma run_getAllTags h posts es :
  represents h posts es →
  returns (Runtime.getAllTags posts) h
    (λ r h', h' !! r = Some (Runtime.StringArray (getAllTags es))).
Proof.
  intros (os & Hposts & Hos).
  pose (out := length h).
  pose (I := λ (todo : list Runtime.EntryObject) (h1 : list Runtime.object),
          h `prefix_of` h1 ∧
          ∃ sofar es', h1 !! out = Some (Runtime.StringArray sofar) ∧
                       Forall2 (entry_in h) todo es' ∧
                       sofar ++ getAllTags es' = getAllTags es).
  destruct (for_each_invariant I (Runtime.getAllTags_step out) os
              (h ++ [Runtime.StringArray []])) as (h' & Hrun & Hpre & HI).
  { split; [by apply prefix_app_r|]. exists [], es.
    split; [apply lookup_alloc|]. done. }
  { intros eo rest h1 (Hpre & sofar & es' & Hout & Hes' & Hflat).
    apply Forall2_cons_inv_l in Hes' as (e & es'' & He & Hrest & ->).
    destruct (run_getAllTags_step h h1 out eo e sofar Hpre (Nat.le_refl _) Hout He)
      as (h2 & Hstep & Hpre2 & Hout2).
    exists h2. split; [done|]. split; [done|].
    exists (sofar ++ tags (data e)), es''. split; [done|]. split; [done|].
    by rewrite <- app_assoc, <- getAllTags_cons. }
  destruct HI as (sofar & es' & Hout & Hnil & Hflat).
  apply Forall2_nil_inv_l in Hnil as ->. rewrite app_nil_r in Hflat. subst sofar.
  exists out, h'. split; [|done].
  unfold Runtime.getAllTags.
  rewrite (bind_Ok _ _ _ _ _ (load_posts_Ok _ _ _ Hposts)).
  rewrite (bind_Ok _ _ h out (h ++ [Runtime.StringArray []]) eq_refl).
  by rewrite (bind_Ok _ _ _ _ _ Hrun).
Qed.

(** ** The tag vocabulary and the ranking, run *)

Lemma run_getUniqueTags h posts es :
  represents h posts es →
  returns (Runtime.getUniqueTags posts) h
    (λ r h', h' !! r = Some (Runtime.StringArray (getUniqueTags es))).
Proof.
  intros Hposts.
  destruct (run_getAllTags h posts es Hposts) as (all & h1 & Hall & Hpre1 & Hts).
  pose (set := length h1).
  pose (body := λ t : string,
          s ← Runtime.load_set set;
          Runtime.store set (Runtime.TagSet (Set_add s t))).
  pose (I := λ (todo : list string) (hx : list Runtime.object),
          h `prefix_of` hx ∧
          ∃ s, hx !! set = Some (Runtime.TagSet s) ∧
               fold_left Set_add todo s = getUniqueTags es).
  destruct (for_each_invariant I body (getAllTags es)
              (h1 ++ [Runtime.TagSet []])) as (h3 & Hrun & Hpre3 & s & Hset & Hs).
  { split; [by apply prefix_app_r|]. exists []. split; [apply lookup_alloc|done]. }
  { intros t rest hx (Hpre & s & Hset & Hs).
    exists (<[set := Runtime.TagSet (Set_add s t)]> hx). split; [|split].
    - unfold body. rewrite (bind_Ok _ _ _ _ _ (load_set_Ok _ _ _ Hset)).
      by eapply store_Ok.
    - apply prefix_insert_fresh; [done|]. by apply prefix_length.
    - exists (Set_add s t). split; [|done].
      apply list_lookup_insert_eq. by eapply lookup_lt_Some. }
  cbn [fold_left] in Hs. subst s.
  exists (length h3), (h3 ++ [Runtime.StringArray (getUniqueTags es)]).
  split; [|split; [by apply prefix_app_r|apply lookup_alloc]].
  unfold Runtime.getUniqueTags.
  rewrite (bind_Ok _ _ _ _ _ Hall).
  rewrite (bind_Ok _ _ _ _ _ (load_strings_Ok _ _ _ Hts)).
  rewrite (bind_Ok _ _ h1 set (h1 ++ [Runtime.TagSet []]) eq_refl).
  fold body. rewrite (bind_Ok _ _ _ _ _ Hrun).
  by rewrite (bind_Ok _ _ _ _ _ (load_set_Ok _ _ _ Hset)).
Qed.

Lemma run_getUniqueTagsWithCount h posts es :
  represents h posts es →
  returns (Runtime.getUniqueTagsWithCount posts) h
    (λ r h', h' !! r = Some (Runtime.PairArray (getUniqueTagsWithCount es))).
Proof.
  intros Hposts.
  destruct (run_getAllTags h posts es Hposts) as (all & h1 & Hall & Hpre1 & Hts).
  pose (acc := length h1).
  pose (body := λ t : string,
          m ← Runtime.load_map acc;
          Runtime.store acc (Runtime.TagMap (count_step m t))).
  pose (I := λ (todo : list string) (hx : list Runtime.object),
          h `prefix_of` hx ∧
          ∃ m, hx !! acc = Some (Runtime.TagMap m) ∧
               fold_left count_step todo m = count_tags (getAllTags es)).
  destruct (for_each_invariant I body (getAllTags es)
              (h1 ++ [Runtime.TagMap []])) as (h3 & Hrun & Hpre3 & m & Hacc & Hm).
  { split; [by apply prefix_app_r|]. exists []. split; [apply lookup_alloc|done]. }
  { intros t rest hx (Hpre & m & Hacc & Hm).
    exists (<[acc := Runtime.TagMap (count_step m t)]> hx). split; [|split].
    - unfold body. rewrite (bind_Ok _ _ _ _ _ (load_map_Ok _ _ _ Hacc)).
      by eapply store_Ok.
    - apply prefix_insert_fresh; [done|]. by apply prefix_length.
    - exists (count_step m t). split; [|done].
      apply list_lookup_insert_eq. by eapply lookup_lt_Some. }
  cbn [fold_left] in Hm. subst m.
  pose (arr := length h3).
  exists arr, (<[arr := Runtime.PairArray (getUniqueTagsWithCount es)]>
                 (h3 ++ [Runtime.PairArray (count_tags (getAllTags es))])).
  split; [|split].
  - unfold Runtime.getUniqueTagsWithCount.
    rewrite (bind_Ok _ _ _ _ _ Hall).
    rewrite (bind_Ok _ _ _ _ _ (load_strings_Ok _ _ _ Hts)).
    rewrite (bind_Ok _ _ h1 acc (h1 ++ [Runtime.TagMap []]) eq_refl).
    fold body. rewrite (bind_Ok _ _ _ _ _ Hrun).
    rewrite (bind_Ok _ _ _ _ _ (load_map_Ok _ _ _ Hacc)).
    rewrite (bind_Ok _ _ h3 arr
               (h3 ++ [Runtime.PairArray (count_tags (getAllTags es))]) eq_refl).
    unfold arr.
    rewrite (bind_Ok _ _ _ _ _ (load_pairs_Ok _ _ _ (lookup_alloc _ _))).
    by rewrite (bind_Ok _ _ _ _ _ (store_Ok _ _ _ _ (lookup_alloc _ _))).
  - apply prefix_insert_fresh; [by apply prefix_app_r|].
    unfold arr. by apply prefix_length.
  - apply list_lookup_insert_eq. rewrite length_app. unfold arr. cbn. lia.
Qed.

(** ** The visibility filter, run *)

Lemma run_getAllPosts_filter PROD h eo e :
  entry_in h eo e →
  Runtime.getAllPosts_filter PROD eo h = Runtime.Ok (getAllPosts_filter PROD e, h).
Proof.
  intros (Hid & Hd & _). unfold Runtime.getAllPosts_filter, getAllPosts_filter.
  rewrite Hid, Hd. by destruct PROD.
Qed.

Lemma run_filter_entries PROD h os es :
  Forall2 (entry_in h) os es →
  ∃ kept, Runtime.filter_entries (Runtime.getAllPosts_filter PROD) os h =
            Runtime.Ok (kept, h) ∧
          Forall2 (entry_in h) kept (getAllPosts PROD es).
Proof.
  induction 1 as [|eo e os es He _ (kept & Hrun & Hkept)]; cbn [Runtime.filter_entries].
  { exists []. by split. }
  rewrite (bind_Ok _ _ _ _ _ (run_getAllPosts_filter PROD _ _ _ He)).
  rewrite (bind_Ok _ _ _ _ _ Hrun).
  unfold getAllPosts, getCollection in *. cbn [List.filter].
  destruct (getAllPosts_filter PROD e).
  - exists (eo :: kept). split; [done|]. by constructor.
  - exists kept. by split.
Qed.

Lemma run_getAllPosts PROD h collection es :
  represents h collection es →
  returns (Runtime.getAllPosts PROD collection) h
    (λ r h', represents h' r (getAllPosts PROD es)).
Proof.
  intros (os & Hcoll & Hos).
  destruct (run_filter_entries PROD h os es Hos) as (kept & Hrun & Hkept).
  exists (length h), (h ++ [Runtime.PostArray kept]).
  split; [|split; [by apply prefix_app_r|]].
  - unfold Runtime.getAllPosts, Runtime.getCollection.
    rewrite (bind_Ok _ _ _ _ _ (load_posts_Ok _ _ _ Hcoll)).
    by rewrite (bind_Ok _ _ _ _ _ Hrun).
  - exists kept. split; [apply lookup_alloc|].
    eapply Forall2_impl; [done|]. intros ??.
    apply entry_in_prefix. by apply prefix_app_r.
Qed.

(** ** The year index, run *)

Lemma buckets_hold_allocated h0 hx buckets filed y r :
  buckets_hold h0 hx buckets filed → buckets !! y = Some r → (r < length hx)%nat.
Proof.
  intros (_ & _ & Hc) Hy. specialize (Hc y).
  destruct (filed !! y); [|congruence].
  destruct Hc as (r' & os & Hr' & Hos & _).
  assert (r' = r) as -> by congruence. by eapply lookup_lt_Some.
Qed.

Lemma run_groupPostsByYear_step h0 hx eo e buckets filed :
  h0 `prefix_of` hx →
  hx !! length h0 = Some (Runtime.YearRecord buckets) →
  buckets_hold h0 hx buckets filed →
  entry_in h0 eo e →
  ∃ h2 buckets',
    Runtime.groupPostsByYear_step (length h0) eo hx = Runtime.Ok (tt, h2) ∧
    h0 `prefix_of` h2 ∧
    h2 !! length h0 = Some (Runtime.YearRecord buckets') ∧
    buckets_hold h0 h2 buckets' (groupPostsByYear_step filed e).
Proof.
  intros Hpre Hacc Hinv He.
  pose proof Hinv as (Hrange & Hinj & Hcont).
  destruct He as (Hid & Hd & Hp & Htags).
  assert (He : entry_in h0 eo e) by (by repeat split).
  assert (Hacc_lt : (length h0 < length hx)%nat) by by eapply lookup_lt_Some.
  unfold Runtime.groupPostsByYear_step. rewrite Hp. cbn [Runtime.defined].
  rewrite (bind_Ok _ _ hx (publishDate (data e)) hx eq_refl). cbn zeta.
  rewrite (bind_Ok _ _ _ _ _ (load_record_Ok _ _ _ Hacc)).
  fold (year_of e). pose proof (Hcont (year_of e)) as Hyear.
  destruct (filed !! year_of e) as [b0|] eqn:Hfiled.
  - (* the bucket exists: the post is pushed onto it *)
    destruct Hyear as (r & os & Hr & Hos & Hb0). rewrite Hr.
    rewrite (bind_Ok _ _ hx tt hx eq_refl).
    rewrite (bind_Ok _ _ _ _ _ (load_record_Ok _ _ _ Hacc)). rewrite Hr.
    rewrite (bind_Ok _ _ _ _ _ (load_posts_Ok _ _ _ Hos)).
    rewrite (store_Ok _ _ _ _ Hos).
    pose proof (Hrange _ _ Hr) as Hr_gt.
    eexists _, buckets. split; [done|]. split; [|split].
    + apply prefix_insert_fresh; [done|lia].
    + rewrite list_lookup_insert_ne by lia. done.
    + split; [done|]. split; [done|]. intros y.
      rewrite groupPostsByYear_step_lookup.
      destruct (decide (year_of e = y)) as [<-|Hne].
      * rewrite Hfiled. cbn. exists r, (os ++ [eo]). split; [done|]. split.
        -- apply list_lookup_insert_eq. by eapply lookup_lt_Some.
        -- apply Forall2_app; [done|]. by constructor.
      * specialize (Hcont y). destruct (filed !! y); [|done].
        destruct Hcont as (r' & os' & Hr' & Hos' & Hb').
        exists r', os'. split; [done|]. split; [|done].
        rewrite list_lookup_insert_ne; [done|].
        intros <-. apply Hne. by eapply Hinj.
  - (* first post of its year: a bucket is allocated, then pushed onto *)
    rewrite Hyear.
    set (fresh := length hx).
    set (buckets' := <[year_of e := fresh]> buckets).
    set (h1 := <[length h0 := Runtime.YearRecord buckets']>
                 (hx ++ [Runtime.PostArray []])).
    assert (Hacc1 : h1 !! length h0 = Some (Runtime.YearRecord buckets')).
    { apply list_lookup_insert_eq. rewrite length_app. lia. }
    assert (Hfresh1 : h1 !! fresh = Some (Runtime.PostArray [])).
    { unfold h1. rewrite list_lookup_insert_ne by (unfold fresh; lia).
      apply lookup_alloc. }
    rewrite (bind_Ok _ _ hx tt h1).
    2:{ rewrite (bind_Ok _ _ hx fresh (hx ++ [Runtime.PostArray []]) eq_refl).
        eapply store_Ok. by eapply lookup_alloc_old. }
    rewrite (bind_Ok _ _ _ _ _ (load_record_Ok _ _ _ Hacc1)).
    unfold buckets' at 1. rewrite lookup_insert_eq.
    rewrite (bind_Ok _ _ _ _ _ (load_posts_Ok _ _ _ Hfresh1)).
    rewrite (store_Ok _ _ _ _ Hfresh1). cbn [app].
    eexists _, buckets'. split; [done|]. split; [|split].
    + apply prefix_insert_fresh; [|unfold fresh; lia].
      apply prefix_insert_fresh; [by apply prefix_app_r|done].
    + rewrite list_lookup_insert_ne by (unfold fresh; lia). done.
    + split; [|split].
      * intros y r. unfold buckets'. rewrite lookup_insert.
        case_decide; [intros [= <-]; unfold fresh; lia|apply Hrange].
      * assert (Hold : ∀ y r, buckets !! y = Some r → r ≠ fresh).
        { intros y r Hy. pose proof (buckets_hold_allocated _ _ _ _ _ _ Hinv Hy).
          unfold fresh. lia. }
        intros y1 y2 r. unfold buckets'. rewrite !lookup_insert.
        repeat case_decide; subst; try done.
        -- intros [= <-] Hy2. by apply Hold in Hy2.
        -- intros Hy1 [= <-]. by apply Hold in Hy1.
        -- apply Hinj.
      * intros y. rewrite groupPostsByYear_step_lookup.
        destruct (decide (year_of e = y)) as [<-|Hne].
        -- rewrite Hfiled. cbn. exists fresh, [eo]. split; [|split].
           ++ unfold buckets'. by rewrite lookup_insert_eq.
           ++ apply list_lookup_insert_eq. by eapply lookup_lt_Some.
           ++ by repeat constructor.
        -- specialize (Hcont y). unfold buckets'. rewrite lookup_insert_ne by done.
           destruct (filed !! y); [|done].
           destruct Hcont as (r' & os' & Hr' & Hos' & Hb').
           exists r', os'. split; [done|]. split; [|done].
           pose proof (Hrange _ _ Hr'). pose proof (lookup_lt_Some _ _ _ Hos').
           rewrite list_lookup_insert_ne by (unfold fresh; lia).
           unfold h1. rewrite list_lookup_insert_ne by lia.
           by apply lookup_alloc_old.
Qed.

Lemma run_groupPostsByYear h posts es :
  represents h posts es →
  returns (Runtime.groupPostsByYear posts) h
    (λ r h', represents_index h' r (groupPostsByYear es)).
Proof.
  intros (os & Hposts & Hos).
  pose (I := λ (todo : list Runtime.EntryObject) (hx : list Runtime.object),
          h `prefix_of` hx ∧
          ∃ buckets filed es',
            hx !! length h = Some (Runtime.YearRecord buckets) ∧
            buckets_hold h hx buckets filed ∧
            Forall2 (entry_in h) todo es' ∧
            fold_left groupPostsByYear_step es' filed = groupPostsByYear es).
  destruct (for_each_invariant I (Runtime.groupPostsByYear_step (length h)) os
              (h ++ [Runtime.YearRecord ∅]))
    as (h' & Hrun & Hpre & buckets & filed & es' & Hacc & Hinv & Hnil & Hfiled).
  { split; [by apply prefix_app_r|]. exists ∅, ∅, es.
    split; [apply lookup_alloc|]. split; [|done].
    split; [|split]; intros *; by rewrite lookup_empty. }
  { intros eo rest hx (Hpre & buckets & filed & es' & Hacc & Hinv & Hes' & Hfiled).
    apply Forall2_cons_inv_l in Hes' as (e & es'' & He & Hrest & ->).
    destruct (run_groupPostsByYear_step h hx eo e buckets filed Hpre Hacc Hinv He)
      as (h2 & buckets' & Hstep & Hpre2 & Hacc2 & Hinv2).
    exists h2. split; [done|]. split; [done|].
    by exists buckets', (groupPostsByYear_step filed e), es''. }
  apply Forall2_nil_inv_l in Hnil as ->. cbn [fold_left] in Hfiled. subst filed.
  exists (length h), h'. split; [|split; [done|]].
  - unfold Runtime.groupPostsByYear.
    rewrite (bind_Ok _ _ _ _ _ (load_posts_Ok _ _ _ Hposts)).
    rewrite (bind_Ok _ _ h (length h) (h ++ [Runtime.YearRecord ∅]) eq_refl).
    by rewrite (bind_Ok _ _ _ _ _ Hrun).
  - exists buckets. split; [done|]. intros y.
    destruct Hinv as (_ & _ & Hcont). specialize (Hcont y).
    destruct (groupPostsByYear es !! y); [|done].
    destruct Hcont as (r & os' & Hr & Hos' & Hb).
    exists r. split; [done|]. exists os'. split; [done|].
    eapply Forall2_impl; [done|]. intros ??. by apply entry_in_prefix.
Qed.

(** An entry whose [tags] field is missing makes [getAllTags] throw: the
    store model does distinguish the inputs the loader must rule out. *)
Lemma getAllTags_throws_without_tags :
  let eo := {| Runtime.o_id := "notes/a";
               Runtime.o_data := {| Runtime.o_draft := Some false;
                                    Runtime.o_publishDate := Some {| getFullYear := 2025 |};
                                    Runtime.o_tags := None |} |} in
  Runtime.getAllTags 0%nat [Runtime.PostArray [eo]] = Runtime.Throw Runtime.TypeError.
Proof. reflexivity. Qed.

Lemma sample_heap_represents : represents sample_heap 2%nat sample_posts.
Proof.
  eexists. split; [reflexivity|].
  repeat constructor; eexists; split; reflexivity.
Qed.

(** C9. On well-formed input every operation is total and has no side
    effect: if the array at [posts] holds entries that carry [draft],
    [publishDate] and [tags], each of the five operations returns (it does
    not throw), every object that was in the store is left as it was, and
    the value returned is the one the operation computes on the articles. *)
Theorem operations_total_without_side_effects
    (h : list Runtime.object) (posts : nat) (es : list CollectionEntry) :
  represents h posts es →
  (∀ PROD, returns (Runtime.getAllPosts PROD posts) h
             (λ r h', represents h' r (getAllPosts PROD es))) ∧
  returns (Runtime.groupPostsByYear posts) h
    (λ r h', represents_index h' r (groupPostsByYear es)) ∧
  returns (Runtime.getAllTags posts) h
    (λ r h', h' !! r = Some (Runtime.StringArray (getAllTags es))) ∧
  returns (Runtime.getUniqueTags posts) h
    (λ r h', h' !! r = Some (Runtime.StringArray (getUniqueTags es))) ∧
  returns (Runtime.getUniqueTagsWithCount posts) h
    (λ r h', h' !! r = Some (Runtime.PairArray (getUniqueTagsWithCount es))).
Proof.
  intros Hwf. split; [intros PROD; by apply run_getAllPosts|].
  split; [by apply run_groupPostsByYear|].
  split; [by apply run_getAllTags|].
  split; [by apply run_getUniqueTags|by apply run_getUniqueTagsWithCount].
Qed.

Lemma operations_total_without_side_effects_witness :
  (∀ PROD, returns (Runtime.getAllPosts PROD 2%nat) sample_heap
             (λ r h', represents h' r (getAllPosts PROD sample_posts))) ∧
  returns (Runtime.groupPostsByYear 2%nat) sample_heap
    (λ r h', represents_index h' r (groupPostsByYear sample_posts)) ∧
  returns (Runtime.getAllTags 2%nat) sample_heap
    (λ r h', h' !! r = Some (Runtime.StringArray (getAllTags sample_posts))) ∧
  returns (Runtime.getUniqueTags 2%nat) sample_heap
    (λ r h', h' !! r = Some (Runtime.StringArray (getUniqueTags sample_posts))) ∧
  returns (Runtime.getUniqueTagsWithCount 2%nat) sample_heap
    (λ r h', h' !! r =
             Some (Runtime.PairArray (getUniqueTagsWithCount sample_posts))).
Proof.
  apply (operations_total_without_side_effects sample_heap 2%nat sample_posts).
  eexists. split; [reflexivity|].
  repeat constructor; eexists; split; reflexivity.
Defined.

(** * Further properties of the visibility filter *)

Lemma getAllPosts_cons PROD p collection :
  getAllPosts PROD (p :: collection) =
    if getAllPosts_filter PROD p
    then p :: getAllPosts PROD collection
    else getAllPosts PROD collection.
Proof. reflexivity. Qed.

Lemma getAllPosts_sublist PROD collection :
  sublist (getAllPosts PROD collection) collection.
Proof.
  induction collection as [|p l IH]; [constructor|].
  rewrite getAllPosts_cons.
  destruct (getAllPosts_filter PROD p); [by apply sublist_skip|by apply sublist_cons].
Qed.






(** * Further properties of the year index *)

Lemma groupPostsByYear_is_Some posts y :
  is_Some (groupPostsByYear posts !! y) ↔ ∃ p, p ∈ posts ∧ year_of p = y.
Proof.
  rewrite groupPostsByYear_lookup. unfold published_in. split.
  - destruct (filter _ posts) as [|p b] eqn:E; [by intros [? ?]|]. intros _.
    assert (Hp : p ∈ filter (λ p, year_of p = y) posts) by (rewrite E; by left).
    apply list_elem_of_filter in Hp as [? ?]. by exists p.
  - intros (p & Hp & Hy).
    assert (Hin : p ∈ filter (λ p, year_of p = y) posts)
      by by apply list_elem_of_filter.
    destruct (filter _ posts); [by apply not_elem_of_nil in Hin|done].
Qed.

Lemma size_groupPostsByYear_step (acc : gmap Z (list CollectionEntry)) post :
  (size (groupPostsByYear_step acc post) ≤ S (size acc))%nat.
Proof.
  unfold groupPostsByYear_step. cbn zeta.
  set (yr := getFullYear (publishDate (data post))).
  rewrite <- (size_dom (D := gset Z)), dom_alter_L, size_dom.
  destruct (acc !! yr) eqn:Hy; [lia|]. by rewrite map_size_insert_None.
Qed.

Lemma size_groupPostsByYear_fold posts (acc : gmap Z (list CollectionEntry)) :
  (size (fold_left groupPostsByYear_step posts acc) ≤ size acc + length posts)%nat.
Proof.
  revert acc. induction posts as [|p l IH]; intros acc; cbn [fold_left length].
  - lia.
  - specialize (IH (groupPostsByYear_step acc p)).
    pose proof (size_groupPostsByYear_step acc p). lia.
Qed.

(** X2. The keys of the year index are exactly the years of the input
    articles: there are at most as many keys as articles, and the index is
    empty only for the empty input. *)
Theorem groupPostsByYear_keys (posts : list CollectionEntry) :
  dom (groupPostsByYear posts) =@{gset Z} list_to_set (year_of <$> posts) ∧
  (size (groupPostsByYear posts) ≤ length posts)%nat ∧
  (groupPostsByYear posts = ∅ ↔ posts = []).
Proof.
  split; [|split].
  - apply set_eq. intros y.
    rewrite elem_of_dom, groupPostsByYear_is_Some, elem_of_list_to_set,
      list_elem_of_fmap.
    split; intros (p & ? & ?); by exists p.
  - unfold groupPostsByYear.
    pose proof (size_groupPostsByYear_fold posts ∅) as H.
    by rewrite map_size_empty in H.
  - split; [|by intros ->].
    destruct posts as [|p l]; [done|]. intros Hempty.
    assert (Hsome : is_Some (groupPostsByYear (p :: l) !! year_of p)).
    { apply groupPostsByYear_is_Some. exists p. split; [by left|done]. }
    rewrite Hempty, lookup_empty in Hsome. by destruct Hsome.
Qed.

(** X3. Indexing a concatenation is merging the indexes of its parts: a year
    of one part keeps that part's bucket, and a year of both gets the bucket
    of the first part followed by the bucket of the second. *)
Theorem groupPostsByYear_app (posts1 posts2 : list CollectionEntry) :
  groupPostsByYear (posts1 ++ posts2) =
    union_with (λ b1 b2, Some (b1 ++ b2))
               (groupPostsByYear posts1) (groupPostsByYear posts2).
Proof.
  apply map_eq. intros y.
  rewrite lookup_union_with, !groupPostsByYear_lookup.
  unfold published_in. rewrite filter_app.
  destruct (filter _ posts1), (filter _ posts2); cbn; try done.
  by rewrite app_nil_r.
Qed.

(** X4. The year index of the visible posts: an article lies in the bucket
    of a year exactly when it is in the collection, the callback of the
    build mode accepts it, and that year is its own; so no bucket holds a
    draft and, in production, none holds an entry under ["demo/"]. *)
Theorem groupPostsByYear_of_getAllPosts (PROD : bool)
    (collection : list CollectionEntry) :
  (∀ p y, (∃ b, groupPostsByYear (getAllPosts PROD collection) !! y = Some b
                ∧ p ∈ b) ↔
          p ∈ collection ∧ getAllPosts_filter PROD p = true ∧ year_of p = y) ∧
  (∀ y b, groupPostsByYear (getAllPosts PROD collection) !! y = Some b →
          Forall (λ p, draft (data p) = false ∧
                       (PROD = true → startsWith (id p) "demo/" = false)) b).
Proof.
  assert (Hbucket : ∀ p y,
            (∃ b, groupPostsByYear (getAllPosts PROD collection) !! y = Some b
                  ∧ p ∈ b) ↔
            p ∈ collection ∧ getAllPosts_filter PROD p = true ∧ year_of p = y).
  { intros p y. rewrite groupPostsByYear_lookup. unfold published_in. split.
    - intros (b & Hb & Hp).
      destruct (filter _ (getAllPosts PROD collection)) eqn:E; [done|].
      injection Hb as <-. rewrite <- E in Hp.
      apply list_elem_of_filter in Hp as [Hy Hp].
      apply getAllPosts_elem in Hp as [? ?]. done.
    - intros (Hp & Hf & Hy).
      assert (Hin : p ∈ filter (λ p, year_of p = y) (getAllPosts PROD collection)).
      { apply list_elem_of_filter. split; [done|]. by apply getAllPosts_elem. }
      destruct (filter _ (getAllPosts PROD collection)) eqn:E.
      + by apply not_elem_of_nil in Hin.
      + eexists. split; [done|]. done. }
  split; [done|]. intros y b Hb. apply Forall_forall. intros p Hp.
  destruct (proj1 (Hbucket p y)) as (_ & Hf & _); [by exists b|].
  unfold getAllPosts_filter in Hf. destruct PROD.
  - cbn zeta in Hf. apply andb_prop in Hf as [Hd Hdemo].
    split; [by apply negb_true_iff|]. intros _. by apply negb_true_iff.
  - split; [by apply negb_true_iff|]. done.
Qed.

(** * Further properties of the tag list and the vocabulary *)

Lemma elem_of_getAllTags posts t :
  t ∈ getAllTags posts ↔ ∃ p, p ∈ posts ∧ t ∈ tags (data p).
Proof.
  unfold getAllTags. rewrite list_elem_of_In, in_flat_map.
  split; intros (p & Hp & Ht); exists p; by rewrite ?list_elem_of_In in *.
Qed.

Lemma getAllTags_sublist posts1 posts2 :
  sublist posts1 posts2 → sublist (getAllTags posts1) (getAllTags posts2).
Proof.
  induction 1 as [|p l k _ IH|p l k _ IH]; [constructor|..];
    rewrite ?getAllTags_cons.
  - by apply sublist_app.
  - by apply sublist_inserts_l.
Qed.

(** X5. The tags of the visible posts: a tag is listed exactly when some
    entry of the collection that the callback of the build mode accepts
    carries it, so a tag carried only by drafts is not listed; and the list
    is a subsequence of the tag list of the whole collection. *)
Theorem getAllTags_of_getAllPosts (PROD : bool)
    (collection : list CollectionEntry) :
  (∀ t, t ∈ getAllTags (getAllPosts PROD collection) ↔
        ∃ p, p ∈ collection ∧ getAllPosts_filter PROD p = true ∧
             t ∈ tags (data p)) ∧
  (∀ t, (∀ p, p ∈ collection → t ∈ tags (data p) → draft (data p) = true) →
        t ∉ getAllTags (getAllPosts PROD collection)) ∧
  sublist (getAllTags (getAllPosts PROD collection)) (getAllTags collection).
Proof.
  assert (Hin : ∀ t, t ∈ getAllTags (getAllPosts PROD collection) ↔
                     ∃ p, p ∈ collection ∧ getAllPosts_filter PROD p = true ∧
                          t ∈ tags (data p)).
  { intros t. rewrite elem_of_getAllTags.
    split; intros (p & Hp & Ht); exists p.
    - apply getAllPosts_elem in Hp as [? ?]. done.
    - destruct Ht as [? ?]. split; [|done]. by apply getAllPosts_elem. }
  split; [done|]. split; [|apply getAllTags_sublist, getAllPosts_sublist].
  intros t Hdrafts (p & Hp & Hf & Ht)%Hin.
  specialize (Hdrafts p Hp Ht). unfold getAllPosts_filter in Hf.
  rewrite Hdrafts in Hf. by destruct PROD.
Qed.

Lemma Set_new_NoDup_id (l : list string) : NoDup l → Set_new l = l.
Proof.
  induction l as [|t l IH] using rev_ind; [done|].
  intros (Hl & Hdisj & _)%NoDup_app. rewrite Set_new_snoc, IH by done.
  unfold Set_add. rewrite bool_decide_false; [done|].
  intros Hin. apply (Hdisj t Hin). by left.
Qed.

Lemma Set_new_submseteq (l : list string) : Set_new l ⊆+ l.
Proof.
  apply NoDup_submseteq; [apply NoDup_Set_new|].
  intros t. by rewrite elem_of_Set_new.
Qed.

(** X6. The vocabulary is never longer than the tag list, and it is the tag
    list itself exactly when no tag is repeated, which is also exactly when
    the two have the same length. *)
Theorem getUniqueTags_length (posts : list CollectionEntry) :
  (length (getUniqueTags posts) ≤ length (getAllTags posts))%nat ∧
  (NoDup (getAllTags posts) ↔ getUniqueTags posts = getAllTags posts) ∧
  (NoDup (getAllTags posts) ↔
   length (getUniqueTags posts) = length (getAllTags posts)).
Proof.
  unfold getUniqueTags. generalize (getAllTags posts). intros l.
  split; [apply submseteq_length, Set_new_submseteq|]. split.
  - split; [apply Set_new_NoDup_id|]. intros <-. apply NoDup_Set_new.
  - split; [by intros ->%Set_new_NoDup_id|]. intros Hlen.
    assert (Hperm : Set_new l ≡ₚ l).
    { apply submseteq_length_Permutation; [apply Set_new_submseteq|lia]. }
    rewrite <- Hperm. apply NoDup_Set_new.
Qed.

Lemma Set_add_fold_prefix (l s : list string) :
  s `prefix_of` fold_left Set_add l s.
Proof.
  revert s. induction l as [|t l IH]; intros s; cbn [fold_left]; [done|].
  etrans; [|apply IH]. unfold Set_add.
  case_bool_decide; [done|]. by apply prefix_app_r.
Qed.

(** X7. Articles added at the end never disturb the vocabulary found so far:
    the vocabulary of a sequence is a prefix of the vocabulary of any
    sequence that extends it. *)
Theorem getUniqueTags_app_prefix (posts1 posts2 : list CollectionEntry) :
  getUniqueTags posts1 `prefix_of` getUniqueTags (posts1 ++ posts2).
Proof.
  unfold getUniqueTags, Set_new. rewrite getAllTags_app, fold_left_app.
  apply Set_add_fold_prefix.
Qed.

(** * Further properties of the ranking *)

Lemma Map_get_Some_elem (m : list (string * Z)) k v :
  Map_get m k = Some v → (k, v) ∈ m.
Proof.
  induction m as [|[k' v'] m IH]; cbn; [done|].
  case_bool_decide as Hk.
  - intros [= <-]. subst k'. by left.
  - intros Hv. right. by apply IH.
Qed.

Lemma count_tags_elem (l : list string) t c :
  (t, c) ∈ count_tags l ↔ t ∈ l ∧ c = occurrences l t.
Proof.
  split; [apply elem_of_count_tags|]. intros [Hin ->].
  apply Map_get_Some_elem. rewrite Map_get_count_tags. by rewrite decide_True.
Qed.

Lemma NoDup_count_tags (l : list string) : NoDup (count_tags l).
Proof.
  apply (NoDup_fmap_1 fst). rewrite count_tags_keys. apply NoDup_Set_new.
Qed.

Lemma occurrences_le_length (l : list string) t :
  occurrences l t ≤ Z.of_nat (length l).
Proof. unfold occurrences. pose proof (length_filter (λ x, x = t) l). lia. Qed.

(** X8. The ranking has one entry for each tag of the vocabulary and no
    other: its tags are pairwise distinct, they are the tags of
    [getUniqueTags] up to order, and there are as many. *)
Theorem getUniqueTagsWithCount_tags (posts : list CollectionEntry) :
  NoDup ((getUniqueTagsWithCount posts).*1) ∧
  (getUniqueTagsWithCount posts).*1 ≡ₚ getUniqueTags posts ∧
  length (getUniqueTagsWithCount posts) = length (getUniqueTags posts).
Proof.
  assert (Hperm : (getUniqueTagsWithCount posts).*1 ≡ₚ getUniqueTags posts).
  { rewrite getUniqueTagsWithCount_Permutation. by rewrite count_tags_keys. }
  split; [rewrite Hperm; apply NoDup_Set_new|]. split; [done|].
  by rewrite <- (length_fmap fst), Hperm.
Qed.

(** X9. Every count in the ranking is at least 1 and at most the length of
    the tag list: the ranking has no entry for a tag that does not occur. *)
Theorem getUniqueTagsWithCount_count_bounds (posts : list CollectionEntry) :
  Forall (λ e, 1 ≤ e.2 ≤ Z.of_nat (length (getAllTags posts)))
         (getUniqueTagsWithCount posts).
Proof.
  rewrite getUniqueTagsWithCount_Permutation.
  apply Forall_forall. intros [t c] [Hin ->]%count_tags_elem. cbn.
  split; [by apply occurrences_elem|apply occurrences_le_length].
Qed.

(** X10. The ranking starts with a most frequent tag: no tag occurs in the
    tag list more often than the count of the first entry says, and the
    ranking is empty only when the tag list is. *)
Theorem getUniqueTagsWithCount_head_is_max (posts : list CollectionEntry) :
  match getUniqueTagsWithCount posts with
  | [] => getAllTags posts = []
  | e :: _ => ∀ t, occurrences (getAllTags posts) t ≤ e.2
  end.
Proof.
  pose proof (getUniqueTagsWithCount_Permutation posts) as Hperm.
  pose proof (getUniqueTagsWithCount_order posts) as Hsorted.
  destruct (getUniqueTagsWithCount posts) as [|e rest].
  - apply Permutation_nil_l in Hperm.
    destruct (getAllTags posts) as [|t l] eqn:E; [done|].
    assert (Hin : (t, occurrences (t :: l) t) ∈ count_tags (t :: l))
      by (apply count_tags_elem; split; [by left|done]).
    rewrite <- Hperm in Hin. by apply not_elem_of_nil in Hin.
  - intros t. apply StronglySorted_inv in Hsorted as [_ Hrest].
    assert (He : 1 ≤ e.2).
    { destruct e as [t0 c0].
      assert (Hin : (t0, c0) ∈ count_tags (getAllTags posts))
        by (rewrite <- Hperm; by left).
      apply count_tags_elem in Hin as [Hin ->]. by apply occurrences_elem. }
    destruct (decide (t ∈ getAllTags posts)) as [Hin|Hin].
    + assert (Ht : (t, occurrences (getAllTags posts) t) ∈ e :: rest)
        by (rewrite Hperm; by apply count_tags_elem).
      apply elem_of_cons in Ht as [<-|Ht]; [done|].
      rewrite Forall_forall in Hrest.
      destruct (Hrest _ Ht) as [Hlt|[Heq _]]; cbn in *; lia.
    + rewrite occurrences_not_elem by done. lia.
Qed.

Lemma Map_set_absent (m : list (string * Z)) k v :
  k ∉ m.*1 → Map_set m k v = m ++ [(k, v)].
Proof.
  induction m as [|[k' v'] m IH]; cbn; [done|].
  intros [Hne Hin]%not_elem_of_cons.
  rewrite bool_decide_false by done. by rewrite IH.
Qed.

Lemma count_tags_NoDup (l : list string) :
  NoDup l → count_tags l = (λ t, (t, 1)) <$> l.
Proof.
  induction l as [|t l IH] using rev_ind; [done|].
  intros (Hl & Hdisj & _)%NoDup_app.
  assert (Hnew : t ∉ (count_tags l).*1).
  { rewrite count_tags_keys, elem_of_Set_new.
    intros Hin. apply (Hdisj t Hin). by left. }
  rewrite count_tags_snoc. unfold count_step.
  rewrite (proj2 (Map_get_None _ _) Hnew), Map_set_absent by done.
  rewrite IH by done. by rewrite fmap_app.
Qed.

(** The sort leaves an array alone when none of its elements has to go
    after a later one. *)
Lemma Array_sort_sorted {A} (compareFn : A → A → Z) (l : list A) :
  StronglySorted (λ a b, compareFn a b ≤ 0) l → Array_sort compareFn l = l.
Proof.
  induction 1 as [|a l _ IH Ha]; [done|].
  cbn [Array_sort foldr]. fold (Array_sort compareFn l). rewrite IH.
  destruct l as [|b l]; [done|]. cbn [sort_insert].
  apply Forall_cons in Ha as [Hab _].
  destruct (Z.leb_spec (compareFn a b) 0); [done|lia].
Qed.

(** X11. When no tag is repeated in the tag list, the ranking is the tag
    list in its own order, each tag paired with 1. *)
Theorem getUniqueTagsWithCount_all_distinct (posts : list CollectionEntry) :
  NoDup (getAllTags posts) →
  getUniqueTagsWithCount posts = (λ t, (t, 1)) <$> getAllTags posts.
Proof.
  intros Hnd. unfold getUniqueTagsWithCount. rewrite count_tags_NoDup by done.
  apply Array_sort_sorted. generalize (getAllTags posts). intros l.
  induction l as [|t l IH]; csimpl; constructor; [done|].
  apply Forall_forall. intros e (t' & -> & _)%list_elem_of_fmap.
  unfold by_count_desc. cbn. lia.
Qed.

Lemma getUniqueTagsWithCount_all_distinct_witness :
  getUniqueTagsWithCount [tagged "x" ["b"; "a"]; tagged "y" ["c"]] =
  (λ t, (t, 1)) <$> getAllTags [tagged "x" ["b"; "a"]; tagged "y" ["c"]].
Proof.
  apply (getUniqueTagsWithCount_all_distinct
           [tagged "x" ["b"; "a"]; tagged "y" ["c"]]).
  refine (bool_decide_unpack _ _). vm_compute. exact I.
Defined.

Lemma occurrences_Permutation (l l' : list string) t :
  l ≡ₚ l' → occurrences l t = occurrences l' t.
Proof. intros Hperm. unfold occurrences. by rewrite Hperm. Qed.

Lemma count_tags_Permutation (l l' : list string) :
  l ≡ₚ l' → count_tags l ≡ₚ count_tags l'.
Proof.
  intros Hperm. apply NoDup_Permutation; [apply NoDup_count_tags..|].
  intros [t c]. rewrite !count_tags_elem.
  by rewrite (occurrences_Permutation _ _ t Hperm), Hperm.
Qed.

(** X12. The ranking does not depend on the order of the articles, except
    for the order among its entries: for two arrangements of the same
    articles the rankings hold the same entries, each tag with the same
    count. *)
Theorem getUniqueTagsWithCount_Permutation_invariant
    (posts posts' : list CollectionEntry) :
  posts ≡ₚ posts' →
  getUniqueTagsWithCount posts ≡ₚ getUniqueTagsWithCount posts' ∧
  (∀ t c, (t, c) ∈ getUniqueTagsWithCount posts ↔
          (t, c) ∈ getUniqueTagsWithCount posts').
Proof.
  intros Hperm.
  assert (Hrank : getUniqueTagsWithCount posts ≡ₚ getUniqueTagsWithCount posts').
  { rewrite !getUniqueTagsWithCount_Permutation.
    apply count_tags_Permutation. unfold getAllTags. by rewrite Hperm. }
  split; [done|]. intros t c. by rewrite Hrank.
Qed.

Lemma getUniqueTagsWithCount_Permutation_invariant_witness :
  getUniqueTagsWithCount
    [tagged "two" ["b"]; tagged "one" ["a"; "b"]; tagged "three" ["a"]]
  ≡ₚ getUniqueTagsWithCount three_posts ∧
  (∀ t c, (t, c) ∈ getUniqueTagsWithCount
            [tagged "two" ["b"]; tagged "one" ["a"; "b"]; tagged "three" ["a"]] ↔
          (t, c) ∈ getUniqueTagsWithCount three_posts).
Proof.
  apply (getUniqueTagsWithCount_Permutation_invariant
           [tagged "two" ["b"]; tagged "one" ["a"; "b"]; tagged "three" ["a"]]
           three_posts).
  apply perm_swap.
Defined.

(** * Which fields each operation needs *)

Lemma bind_Throw {A B} (c : Runtime.M A) (k : A → Runtime.M B) h e :
  c h = Runtime.Throw e → (c ≫= k) h = Runtime.Throw e.
Proof. unfold mbind, Runtime.M_bind. by intros ->. Qed.

Lemma bind_Ok_inv {A B} (c : Runtime.M A) (k : A → Runtime.M B) h b h' :
  (c ≫= k) h = Runtime.Ok (b, h') →
  ∃ a h1, c h = Runtime.Ok (a, h1) ∧ k a h1 = Runtime.Ok (b, h').
Proof.
  unfold mbind, Runtime.M_bind. destruct (c h) as [[a h1]|e]; [|done].
  intros Hk. by exists a, h1.
Qed.

Lemma run_filter_entries_any PROD h os :
  Runtime.filter_entries (Runtime.getAllPosts_filter PROD) os h =
  Runtime.Ok
    (List.filter
       (λ eo, negb (Runtime.truthy (Runtime.o_draft (Runtime.o_data eo)))
              && (negb PROD || negb (startsWith (Runtime.o_id eo) "demo/")))
       os, h).
Proof.
  induction os as [|eo os IH]; [done|].
  cbn [Runtime.filter_entries List.filter].
  rewrite (bind_Ok _ _ h
             (negb (Runtime.truthy (Runtime.o_draft (Runtime.o_data eo)))
              && (negb PROD || negb (startsWith (Runtime.o_id eo) "demo/"))) h).
  2:{ unfold Runtime.getAllPosts_filter. destruct PROD; cbn [negb orb].
      - done.
      - by rewrite andb_true_r. }
  by rewrite (bind_Ok _ _ _ _ _ IH).
Qed.

(** X13. [getAllPosts] needs none of the fields of [data]: on any array of
    entry objects it returns a new array and does not throw.  An entry is
    kept exactly when its [draft] is not [true], so also when [draft] is
    missing, and, in production, its path does not start with ["demo/"]. *)
Theorem getAllPosts_returns_on_any_entries (PROD : bool)
    (h : list Runtime.object) (collection : nat)
    (os : list Runtime.EntryObject) :
  h !! collection = Some (Runtime.PostArray os) →
  ∃ kept,
    Runtime.getAllPosts PROD collection h =
      Runtime.Ok (length h, h ++ [Runtime.PostArray kept]) ∧
    sublist kept os ∧
    ∀ eo, eo ∈ kept ↔
          eo ∈ os ∧
          Runtime.o_draft (Runtime.o_data eo) ≠ Some true ∧
          (PROD = true → startsWith (Runtime.o_id eo) "demo/" = false).
Proof.
  intros Hcoll. eexists. split; [|split].
  - unfold Runtime.getAllPosts, Runtime.getCollection.
    rewrite (bind_Ok _ _ _ _ _ (load_posts_Ok _ _ _ Hcoll)).
    by rewrite (bind_Ok _ _ _ _ _ (run_filter_entries_any PROD h os)).
  - clear Hcoll. induction os as [|eo os IH]; cbn [List.filter]; [constructor|].
    destruct (_ && _); [by apply sublist_skip|by apply sublist_cons].
  - intros eo. rewrite !list_elem_of_In, filter_In, andb_true_iff,
      negb_true_iff, orb_true_iff, !negb_true_iff.
    assert (Hd : Runtime.truthy (Runtime.o_draft (Runtime.o_data eo)) = false ↔
                 Runtime.o_draft (Runtime.o_data eo) ≠ Some true).
    { destruct (Runtime.o_draft (Runtime.o_data eo)) as [[]|]; cbn;
        split; congruence. }
    rewrite Hd. destruct PROD; cbn [negb]; intuition congruence.
Qed.

Lemma getAllPosts_returns_on_any_entries_witness :
  ∃ kept,
    Runtime.getAllPosts false 1%nat partial_heap =
      Runtime.Ok (length partial_heap, partial_heap ++ [Runtime.PostArray kept]) ∧
    sublist kept partial_entries ∧
    ∀ eo, eo ∈ kept ↔
          eo ∈ partial_entries ∧
          Runtime.o_draft (Runtime.o_data eo) ≠ Some true ∧
          (false = true → startsWith (Runtime.o_id eo) "demo/" = false).
Proof.
  apply (getAllPosts_returns_on_any_entries false partial_heap 1%nat).
  reflexivity.
Defined.

Lemma run_getAllTags_step_tags h out eo t ts sofar :
  h !! out = Some (Runtime.StringArray sofar) →
  Runtime.o_tags (Runtime.o_data eo) = Some t →
  h !! t = Some (Runtime.StringArray ts) →
  t ≠ out →
  ∃ h', Runtime.getAllTags_step out eo h = Runtime.Ok (tt, h') ∧
        h' !! out = Some (Runtime.StringArray (sofar ++ ts)) ∧
        (∀ l, l ≠ out → (l < length h)%nat → h' !! l = h !! l).
Proof.
  intros Hout Ht Hts Hne.
  assert (Hout_lt : (out < length h)%nat) by by eapply lookup_lt_Some.
  exists (<[out := Runtime.StringArray (sofar ++ ts)]>
            (h ++ [Runtime.StringArray ts])).
  split; [|split].
  - unfold Runtime.getAllTags_step, Runtime.spread_strings. rewrite Ht.
    rewrite (bind_Ok _ _ h t h eq_refl).
    rewrite (bind_Ok _ _ h (length h) (h ++ [Runtime.StringArray ts])).
    2:{ by rewrite (bind_Ok _ _ _ _ _ (load_strings_Ok _ _ _ Hts)). }
    rewrite (bind_Ok _ _ _ _ _ (load_strings_Ok _ _ _ (lookup_alloc _ _))).
    rewrite (bind_Ok _ _ _ _ _
               (load_strings_Ok _ _ _ (lookup_alloc_old _ _ _ _ Hout))).
    by eapply store_Ok, lookup_alloc_old.
  - apply list_lookup_insert_eq. rewrite length_app. lia.
  - intros l Hl Hlt. rewrite list_lookup_insert_ne by done.
    by rewrite lookup_app_l.
Qed.

Lemma getAllTags_step_lacking_tags out eo h :
  Runtime.o_tags (Runtime.o_data eo) = None →
  Runtime.getAllTags_step out eo h = Runtime.Throw Runtime.TypeError.
Proof. intros Hnone. unfold Runtime.getAllTags_step. by rewrite Hnone. Qed.

(** The [flatMap] loop over entries whose [tags], when there, refer to
    arrays allocated before the result array. *)
Lemma run_getAllTags_loop out os :
  ∀ h sofar,
    h !! out = Some (Runtime.StringArray sofar) →
    Forall (λ eo, match Runtime.o_tags (Runtime.o_data eo) with
                  | Some t => t ≠ out ∧ ∃ ts, h !! t = Some (Runtime.StringArray ts)
                  | None => True
                  end) os →
    (Forall (λ eo, Runtime.o_tags (Runtime.o_data eo) ≠ None) os →
     ∃ h' all, Runtime.for_each os (Runtime.getAllTags_step out) h =
                 Runtime.Ok (tt, h') ∧
               h' !! out = Some (Runtime.StringArray all)) ∧
    (Exists (λ eo, Runtime.o_tags (Runtime.o_data eo) = None) os →
     Runtime.for_each os (Runtime.getAllTags_step out) h =
       Runtime.Throw Runtime.TypeError).
Proof.
  induction os as [|eo os IH]; intros h sofar Hout Hok.
  { split; [intros _; by exists h, sofar|]. by intros ?%Exists_nil. }
  apply Forall_cons in Hok as [Heo Hok]. cbn [Runtime.for_each].
  destruct (Runtime.o_tags (Runtime.o_data eo)) as [t|] eqn:Ht.
  - cbn beta in Heo. destruct Heo as (Hne & ts & Hts).
    destruct (run_getAllTags_step_tags h out eo t ts sofar Hout Ht Hts Hne)
      as (h1 & Hstep & Hout1 & Hsame).
    rewrite (bind_Ok _ _ _ _ _ Hstep).
    destruct (IH h1 (sofar ++ ts) Hout1) as [Hall Hsome].
    { eapply Forall_impl; [exact Hok|]. intros eo'. cbn beta.
      destruct (Runtime.o_tags (Runtime.o_data eo')) as [t'|]; [|done].
      intros (Hne' & ts' & Hts'). split; [done|]. exists ts'.
      rewrite Hsame; [done..|]. by eapply lookup_lt_Some. }
    split.
    + intros [_ Hrest]%Forall_cons. by apply Hall.
    + intros [Hnone|Hrest]%Exists_cons; [congruence|by apply Hsome].
  - split.
    + intros [Hsome _]%Forall_cons. done.
    + intros _. by apply bind_Throw, getAllTags_step_lacking_tags.
Qed.

(** The loops of [new Set(...)] and of the counting reducer run to their
    end on any array of strings. *)
Lemma run_Set_loop set ts :
  ∀ h s, h !! set = Some (Runtime.TagSet s) →
    ∃ h' s', Runtime.for_each ts
               (λ t, s ← Runtime.load_set set;
                     Runtime.store set (Runtime.TagSet (Set_add s t))) h =
               Runtime.Ok (tt, h') ∧
             h' !! set = Some (Runtime.TagSet s').
Proof.
  induction ts as [|t ts IH]; intros h s Hset; cbn [Runtime.for_each].
  { by exists h, s. }
  rewrite (bind_Ok _ _ h tt (<[set := Runtime.TagSet (Set_add s t)]> h)).
  2:{ rewrite (bind_Ok _ _ _ _ _ (load_set_Ok _ _ _ Hset)). by eapply store_Ok. }
  eapply IH, list_lookup_insert_eq. by eapply lookup_lt_Some.
Qed.

Lemma run_Map_loop acc ts :
  ∀ h m, h !! acc = Some (Runtime.TagMap m) →
    ∃ h' m', Runtime.for_each ts
               (λ t, m ← Runtime.load_map acc;
                     Runtime.store acc (Runtime.TagMap (count_step m t))) h =
               Runtime.Ok (tt, h') ∧
             h' !! acc = Some (Runtime.TagMap m').
Proof.
  induction ts as [|t ts IH]; intros h m Hacc; cbn [Runtime.for_each].
  { by exists h, m. }
  rewrite (bind_Ok _ _ h tt (<[acc := Runtime.TagMap (count_step m t)]> h)).
  2:{ rewrite (bind_Ok _ _ _ _ _ (load_map_Ok _ _ _ Hacc)). by eapply store_Ok. }
  eapply IH, list_lookup_insert_eq. by eapply lookup_lt_Some.
Qed.

Lemma run_getAllTags_partial h posts os :
  h !! posts = Some (Runtime.PostArray os) →
  Forall (tags_field_ok h) os →
  (Forall (λ eo, Runtime.o_tags (Runtime.o_data eo) ≠ None) os →
   ∃ h' all, Runtime.getAllTags posts h = Runtime.Ok (length h, h') ∧
             h' !! length h = Some (Runtime.StringArray all)) ∧
  (Exists (λ eo, Runtime.o_tags (Runtime.o_data eo) = None) os →
   Runtime.getAllTags posts h = Runtime.Throw Runtime.TypeError).
Proof.
  intros Hposts Hok.
  destruct (run_getAllTags_loop (length h) os
              (h ++ [Runtime.StringArray []]) [] (lookup_alloc _ _))
    as [Hall Hsome].
  { eapply Forall_impl; [exact Hok|]. intros eo. unfold tags_field_ok.
    destruct (Runtime.o_tags (Runtime.o_data eo)) as [t|]; [|done].
    intros (ts & Hts). pose proof (lookup_lt_Some _ _ _ Hts). split; [lia|].
    exists ts. by apply lookup_alloc_old. }
  assert (Hstart :
            Runtime.getAllTags posts h =
            (Runtime.for_each os (Runtime.getAllTags_step (length h));;
             mret (length h)) (h ++ [Runtime.StringArray []])).
  { unfold Runtime.getAllTags.
    rewrite (bind_Ok _ _ _ _ _ (load_posts_Ok _ _ _ Hposts)).
    by rewrite (bind_Ok _ _ h (length h) (h ++ [Runtime.StringArray []]) eq_refl). }
  split.
  - intros (h' & all & Hrun & Hout)%Hall. exists h', all. split; [|done].
    by rewrite Hstart, (bind_Ok _ _ _ _ _ Hrun).
  - intros Hthrow%Hsome. rewrite Hstart. by apply bind_Throw.
Qed.

(** X14. The three tag operations read [tags] and nothing else of an entry.
    On an array of entry objects whose [tags], where present, refer to
    arrays of strings, each of them returns when every entry has [tags],
    whatever else is missing, and each of them throws a [TypeError] when
    some entry has none. *)
Theorem tag_operations_need_only_tags
    (h : list Runtime.object) (posts : nat) (os : list Runtime.EntryObject) :
  h !! posts = Some (Runtime.PostArray os) →
  Forall (tags_field_ok h) os →
  (Forall (λ eo, Runtime.o_tags (Runtime.o_data eo) ≠ None) os →
   (∃ r h', Runtime.getAllTags posts h = Runtime.Ok (r, h')) ∧
   (∃ r h', Runtime.getUniqueTags posts h = Runtime.Ok (r, h')) ∧
   (∃ r h', Runtime.getUniqueTagsWithCount posts h = Runtime.Ok (r, h'))) ∧
  (Exists (λ eo, Runtime.o_tags (Runtime.o_data eo) = None) os →
   Runtime.getAllTags posts h = Runtime.Throw Runtime.TypeError ∧
   Runtime.getUniqueTags posts h = Runtime.Throw Runtime.TypeError ∧
   Runtime.getUniqueTagsWithCount posts h = Runtime.Throw Runtime.TypeError).
Proof.
  intros Hposts Hok.
  destruct (run_getAllTags_partial h posts os Hposts Hok) as [Hall Hsome].
  split.
  - intros (h1 & all & Hrun & Hout)%Hall.
    split; [by exists (length h), h1|]. split.
    + destruct (run_Set_loop (length h1) all (h1 ++ [Runtime.TagSet []]) []
                  (lookup_alloc _ _)) as (h2 & s & Hloop & Hset).
      exists (length h2), (h2 ++ [Runtime.StringArray s]).
      unfold Runtime.getUniqueTags.
      rewrite (bind_Ok _ _ _ _ _ Hrun).
      rewrite (bind_Ok _ _ _ _ _ (load_strings_Ok _ _ _ Hout)).
      rewrite (bind_Ok _ _ h1 (length h1) (h1 ++ [Runtime.TagSet []]) eq_refl).
      rewrite (bind_Ok _ _ _ _ _ Hloop).
      by rewrite (bind_Ok _ _ _ _ _ (load_set_Ok _ _ _ Hset)).
    + destruct (run_Map_loop (length h1) all (h1 ++ [Runtime.TagMap []]) []
                  (lookup_alloc _ _)) as (h2 & m & Hloop & Hacc).
      exists (length h2),
        (<[length h2 := Runtime.PairArray (Array_sort by_count_desc m)]>
           (h2 ++ [Runtime.PairArray m])).
      unfold Runtime.getUniqueTagsWithCount.
      rewrite (bind_Ok _ _ _ _ _ Hrun).
      rewrite (bind_Ok _ _ _ _ _ (load_strings_Ok _ _ _ Hout)).
      rewrite (bind_Ok _ _ h1 (length h1) (h1 ++ [Runtime.TagMap []]) eq_refl).
      rewrite (bind_Ok _ _ _ _ _ Hloop).
      rewrite (bind_Ok _ _ _ _ _ (load_map_Ok _ _ _ Hacc)).
      rewrite (bind_Ok _ _ h2 (length h2) (h2 ++ [Runtime.PairArray m]) eq_refl).
      rewrite (bind_Ok _ _ _ _ _ (load_pairs_Ok _ _ _ (lookup_alloc _ _))).
      by rewrite (bind_Ok _ _ _ _ _ (store_Ok _ _ _ _ (lookup_alloc _ _))).
  - intros Hthrow%Hsome.
    split; [done|]. split; by apply bind_Throw.
Qed.

Lemma tag_operations_need_only_tags_witness :
  (Forall (λ eo, Runtime.o_tags (Runtime.o_data eo) ≠ None) partial_entries →
   (∃ r h', Runtime.getAllTags 1%nat partial_heap = Runtime.Ok (r, h')) ∧
   (∃ r h', Runtime.getUniqueTags 1%nat partial_heap = Runtime.Ok (r, h')) ∧
   (∃ r h', Runtime.getUniqueTagsWithCount 1%nat partial_heap =
              Runtime.Ok (r, h'))) ∧
  (Exists (λ eo, Runtime.o_tags (Runtime.o_data eo) = None) partial_entries →
   Runtime.getAllTags 1%nat partial_heap = Runtime.Throw Runtime.TypeError ∧
   Runtime.getUniqueTags 1%nat partial_heap = Runtime.Throw Runtime.TypeError ∧
   Runtime.getUniqueTagsWithCount 1%nat partial_heap =
     Runtime.Throw Runtime.TypeError).
Proof.
  apply (tag_operations_need_only_tags partial_heap 1%nat partial_entries).
  - reflexivity.
  - repeat constructor. by exists ["a"].
Defined.

(** During the reduction every bucket of the plain object is an array of
    posts other than the plain object itself. *)
Lemma run_groupPostsByYear_step_dated h acc eo d (buckets : gmap Z nat) :
  h !! acc = Some (Runtime.YearRecord buckets) →
  (∀ y r, buckets !! y = Some r →
          r ≠ acc ∧ ∃ ps, h !! r = Some (Runtime.PostArray ps)) →
  Runtime.o_publishDate (Runtime.o_data eo) = Some d →
  ∃ h' (buckets' : gmap Z nat),
    Runtime.groupPostsByYear_step acc eo h = Runtime.Ok (tt, h') ∧
    h' !! acc = Some (Runtime.YearRecord buckets') ∧
    (∀ y r, buckets' !! y = Some r →
            r ≠ acc ∧ ∃ ps, h' !! r = Some (Runtime.PostArray ps)).
Proof.
  intros Hacc Hbuckets Hd.
  assert (Hacc_lt : (acc < length h)%nat) by by eapply lookup_lt_Some.
  unfold Runtime.groupPostsByYear_step. rewrite Hd. cbn [Runtime.defined].
  rewrite (bind_Ok _ _ h d h eq_refl). cbn zeta.
  rewrite (bind_Ok _ _ _ _ _ (load_record_Ok _ _ _ Hacc)).
  destruct (buckets !! getFullYear d) as [r|] eqn:Hyear.
  - destruct (Hbuckets _ _ Hyear) as (Hr & ps & Hps).
    rewrite (bind_Ok _ _ h tt h eq_refl).
    rewrite (bind_Ok _ _ _ _ _ (load_record_Ok _ _ _ Hacc)). rewrite Hyear.
    rewrite (bind_Ok _ _ _ _ _ (load_posts_Ok _ _ _ Hps)).
    rewrite (store_Ok _ _ _ _ Hps).
    eexists _, buckets. split; [done|]. split.
    + by rewrite list_lookup_insert_ne.
    + intros y r' Hy. destruct (Hbuckets _ _ Hy) as (Hr' & ps' & Hps').
      split; [done|]. destruct (decide (r = r')) as [<-|Hne].
      * eexists. apply list_lookup_insert_eq. by eapply lookup_lt_Some.
      * exists ps'. by rewrite list_lookup_insert_ne.
  - set (fresh := length h).
    set (buckets' := <[getFullYear d := fresh]> buckets).
    set (h1 := <[acc := Runtime.YearRecord buckets']>
                 (h ++ [Runtime.PostArray []])).
    assert (Hacc1 : h1 !! acc = Some (Runtime.YearRecord buckets')).
    { apply list_lookup_insert_eq. rewrite length_app. lia. }
    assert (Hfresh1 : h1 !! fresh = Some (Runtime.PostArray [])).
    { unfold h1. rewrite list_lookup_insert_ne by (unfold fresh; lia).
      apply lookup_alloc. }
    rewrite (bind_Ok _ _ h tt h1).
    2:{ rewrite (bind_Ok _ _ h fresh (h ++ [Runtime.PostArray []]) eq_refl).
        eapply store_Ok. by eapply lookup_alloc_old. }
    rewrite (bind_Ok _ _ _ _ _ (load_record_Ok _ _ _ Hacc1)).
    unfold buckets' at 1. rewrite lookup_insert_eq.
    rewrite (bind_Ok _ _ _ _ _ (load_posts_Ok _ _ _ Hfresh1)).
    rewrite (store_Ok _ _ _ _ Hfresh1).
    eexists _, buckets'. split; [done|]. split.
    + rewrite list_lookup_insert_ne by (unfold fresh; lia). done.
    + intros y r. unfold buckets'. rewrite lookup_insert.
      case_decide.
      * intros [= <-]. split; [unfold fresh; lia|]. eexists.
        apply list_lookup_insert_eq. by eapply lookup_lt_Some.
      * intros Hy. destruct (Hbuckets _ _ Hy) as (Hr & ps & Hps).
        split; [done|]. exists ps.
        pose proof (lookup_lt_Some _ _ _ Hps).
        rewrite list_lookup_insert_ne by (unfold fresh; lia).
        unfold h1. rewrite list_lookup_insert_ne by done.
        by apply lookup_alloc_old.
Qed.

Lemma groupPostsByYear_step_lacking_date acc eo h :
  Runtime.o_publishDate (Runtime.o_data eo) = None →
  Runtime.groupPostsByYear_step acc eo h = Runtime.Throw Runtime.TypeError.
Proof. intros Hnone. unfold Runtime.groupPostsByYear_step. by rewrite Hnone. Qed.

Lemma run_groupPostsByYear_loop acc os :
  ∀ h (buckets : gmap Z nat),
    h !! acc = Some (Runtime.YearRecord buckets) →
    (∀ y r, buckets !! y = Some r →
            r ≠ acc ∧ ∃ ps, h !! r = Some (Runtime.PostArray ps)) →
    (Forall (λ eo, Runtime.o_publishDate (Runtime.o_data eo) ≠ None) os →
     ∃ h', Runtime.for_each os (Runtime.groupPostsByYear_step acc) h =
             Runtime.Ok (tt, h')) ∧
    (Exists (λ eo, Runtime.o_publishDate (Runtime.o_data eo) = None) os →
     Runtime.for_each os (Runtime.groupPostsByYear_step acc) h =
       Runtime.Throw Runtime.TypeError).
Proof.
  induction os as [|eo os IH]; intros h buckets Hacc Hbuckets.
  { split; [intros _; by exists h|]. by intros ?%Exists_nil. }
  cbn [Runtime.for_each].
  destruct (Runtime.o_publishDate (Runtime.o_data eo)) as [d|] eqn:Hd.
  - destruct (run_groupPostsByYear_step_dated h acc eo d buckets Hacc Hbuckets Hd)
      as (h1 & buckets1 & Hstep & Hacc1 & Hbuckets1).
    rewrite (bind_Ok _ _ _ _ _ Hstep).
    destruct (IH h1 buckets1 Hacc1 Hbuckets1) as [Hall Hsome]. split.
    + intros [_ Hrest]%Forall_cons. by apply Hall.
    + intros [Hnone|Hrest]%Exists_cons; [congruence|by apply Hsome].
  - split.
    + intros [Hsome _]%Forall_cons. done.
    + intros _. by apply bind_Throw, groupPostsByYear_step_lacking_date.
Qed.

(** X15. [groupPostsByYear] reads [publishDate] and nothing else of an
    entry: on any array of entry objects it returns when every entry has a
    [publishDate], whatever else is missing, and it throws a [TypeError]
    when some entry has none. *)
Theorem groupPostsByYear_needs_only_publishDate
    (h : list Runtime.object) (posts : nat) (os : list Runtime.EntryObject) :
  h !! posts = Some (Runtime.PostArray os) →
  (Forall (λ eo, Runtime.o_publishDate (Runtime.o_data eo) ≠ None) os →
   ∃ h', Runtime.groupPostsByYear posts h = Runtime.Ok (length h, h')) ∧
  (Exists (λ eo, Runtime.o_publishDate (Runtime.o_data eo) = None) os →
   Runtime.groupPostsByYear posts h = Runtime.Throw Runtime.TypeError).
Proof.
  intros Hposts.
  destruct (run_groupPostsByYear_loop (length h) os
              (h ++ [Runtime.YearRecord ∅]) ∅ (lookup_alloc _ _))
    as [Hall Hsome].
  { intros y r. by rewrite lookup_empty. }
  assert (Hstart :
            Runtime.groupPostsByYear posts h =
            (Runtime.for_each os (Runtime.groupPostsByYear_step (length h));;
             mret (length h)) (h ++ [Runtime.YearRecord ∅])).
  { unfold Runtime.groupPostsByYear.
    rewrite (bind_Ok _ _ _ _ _ (load_posts_Ok _ _ _ Hposts)).
    by rewrite (bind_Ok _ _ h (length h) (h ++ [Runtime.YearRecord ∅]) eq_refl). }
  split.
  - intros (h' & Hrun)%Hall. exists h'.
    by rewrite Hstart, (bind_Ok _ _ _ _ _ Hrun).
  - intros Hthrow%Hsome. rewrite Hstart. by apply bind_Throw.
Qed.

Lemma groupPostsByYear_needs_only_publishDate_witness :
  (Forall (λ eo, Runtime.o_publishDate (Runtime.o_data eo) ≠ None)
          partial_entries →
   ∃ h', Runtime.groupPostsByYear 1%nat partial_heap =
           Runtime.Ok (length partial_heap, h')) ∧
  (Exists (λ eo, Runtime.o_publishDate (Runtime.o_data eo) = None)
          partial_entries →
   Runtime.groupPostsByYear 1%nat partial_heap =
     Runtime.Throw Runtime.TypeError).
Proof.
  apply (groupPostsByYear_needs_only_publishDate partial_heap 1%nat
           partial_entries).
  reflexivity.
Defined.

(** * The operations return new objects *)

Section new_objects.
Import Runtime.

Lemma grows_ret {A} (a : A) : grows (mret a : M A).
Proof. intros h a' h' [= _ <-]. done. Qed.

Lemma grows_throw {A} : grows (throw : M A).
Proof. intros h a h' [=]. Qed.

Lemma grows_alloc o : grows (alloc o).
Proof. intros h r h' [= _ <-]. rewrite length_app. lia. Qed.

Lemma grows_load l : grows (load l).
Proof. intros h o h'. unfold load. destruct (h !! l); [|done]. by intros [= _ <-]. Qed.

Lemma grows_store l o : grows (store l o).
Proof.
  intros h u h'. unfold store. destruct (h !! l); [|done].
  intros Heq. injection Heq as _ <-. by rewrite length_insert.
Qed.

Lemma grows_bind {A B} (c : M A) (k : A → M B) :
  grows c → (∀ a, grows (k a)) → grows (c ≫= k).
Proof.
  intros Hc Hk h b h' (a & h1 & Hrun & Hrest)%bind_Ok_inv.
  apply Hc in Hrun. apply Hk in Hrest. lia.
Qed.

Lemma grows_defined {A} (field : option A) : grows (defined field).
Proof. destruct field; [apply grows_ret|apply grows_throw]. Qed.

Lemma grows_for_each {A} (l : list A) (body : A → M unit) :
  (∀ a, grows (body a)) → grows (for_each l body).
Proof.
  intros Hbody. induction l as [|a l IH]; cbn [for_each]; [apply grows_ret|].
  apply grows_bind; [done|]. by intros _.
Qed.

Lemma keeps_ret {A} (r : A) : keeps r (mret r : M A).
Proof. intros h a h' [= <- <-]. done. Qed.

Lemma keeps_bind {A B} (r : B) (c : M A) (k : A → M B) :
  grows c → (∀ a, keeps r (k a)) → keeps r (c ≫= k).
Proof.
  intros Hc Hk h b h' (a & h1 & Hrun & Hrest)%bind_Ok_inv.
  apply Hc in Hrun. apply Hk in Hrest as [-> ?]. split; [done|lia].
Qed.

Lemma allocates_alloc o : allocates (alloc o).
Proof. intros h r h' [= <- <-]. rewrite length_app. cbn. lia. Qed.

Lemma allocates_alloc_keep o (k : nat → M nat) :
  (∀ r, keeps r (k r)) → allocates (alloc o ≫= k).
Proof.
  intros Hk h r h' (r0 & h1 & [= <- <-] & Hrest)%bind_Ok_inv.
  apply Hk in Hrest as [-> Hlen]. rewrite length_app in Hlen. cbn in Hlen. lia.
Qed.

Lemma allocates_bind {A} (c : M A) (k : A → M nat) :
  grows c → (∀ a, allocates (k a)) → allocates (c ≫= k).
Proof.
  intros Hc Hk h r h' (a & h1 & Hrun & Hrest)%bind_Ok_inv.
  apply Hc in Hrun. apply Hk in Hrest. lia.
Qed.

Lemma allocates_grows (c : M nat) : allocates c → grows c.
Proof. intros Hc h r h' Hrun. apply Hc in Hrun. lia. Qed.

Lemma grows_load_posts l : grows (load_posts l).
Proof.
  apply grows_bind; [apply grows_load|].
  intros []; first [apply grows_ret|apply grows_throw].
Qed.

Lemma grows_load_strings l : grows (load_strings l).
Proof.
  apply grows_bind; [apply grows_load|].
  intros []; first [apply grows_ret|apply grows_throw].
Qed.

Lemma grows_load_pairs l : grows (load_pairs l).
Proof.
  apply grows_bind; [apply grows_load|].
  intros []; first [apply grows_ret|apply grows_throw].
Qed.

Lemma grows_load_record l : grows (load_record l).
Proof.
  apply grows_bind; [apply grows_load|].
  intros []; first [apply grows_ret|apply grows_throw].
Qed.

Lemma grows_load_set l : grows (load_set l).
Proof.
  apply grows_bind; [apply grows_load|].
  intros []; first [apply grows_ret|apply grows_throw].
Qed.

Lemma grows_load_map l : grows (load_map l).
Proof.
  apply grows_bind; [apply grows_load|].
  intros []; first [apply grows_ret|apply grows_throw].
Qed.

Lemma grows_filter_entries PROD os :
  grows (filter_entries (getAllPosts_filter PROD) os).
Proof.
  induction os as [|eo os IH]; cbn [filter_entries]; [apply grows_ret|].
  apply grows_bind.
  - unfold getAllPosts_filter. destruct PROD; apply grows_ret.
  - intros keep. apply grows_bind; [done|]. intros rest. apply grows_ret.
Qed.

Lemma grows_getAllTags_step out eo : grows (getAllTags_step out eo).
Proof.
  unfold getAllTags_step, spread_strings.
  apply grows_bind; [apply grows_defined|]. intros t.
  apply grows_bind.
  { apply grows_bind; [apply grows_load_strings|]. intros ts. apply grows_alloc. }
  intros copy. apply grows_bind; [apply grows_load_strings|]. intros part.
  apply grows_bind; [apply grows_load_strings|]. intros sofar.
  apply grows_store.
Qed.

Lemma grows_groupPostsByYear_step acc eo : grows (groupPostsByYear_step acc eo).
Proof.
  unfold groupPostsByYear_step.
  apply grows_bind; [apply grows_defined|]. intros date. cbn zeta.
  apply grows_bind; [apply grows_load_record|]. intros buckets.
  apply grows_bind.
  { destruct (buckets !! getFullYear date); [apply grows_ret|].
    apply grows_bind; [apply grows_alloc|]. intros fresh. apply grows_store. }
  intros _. apply grows_bind; [apply grows_load_record|]. intros buckets'.
  destruct (buckets' !! getFullYear date); [|apply grows_ret].
  apply grows_bind; [apply grows_load_posts|]. intros ps. apply grows_store.
Qed.

Lemma allocates_getAllTags posts : allocates (getAllTags posts).
Proof.
  unfold getAllTags.
  apply allocates_bind; [apply grows_load_posts|]. intros ps.
  apply allocates_alloc_keep. intros out.
  apply keeps_bind; [|intros _; apply keeps_ret].
  apply grows_for_each. intros eo. apply grows_getAllTags_step.
Qed.

End new_objects.

(** X16. Each of the five operations, whenever it returns, returns a
    reference to an object it has allocated itself: the reference is none of
    those the store held when the operation was called, so no operation hands
    back the array it was given or an array of an entry. *)
Theorem operations_return_new_objects (posts : nat) :
  (∀ PROD, allocates (Runtime.getAllPosts PROD posts)) ∧
  allocates (Runtime.groupPostsByYear posts) ∧
  allocates (Runtime.getAllTags posts) ∧
  allocates (Runtime.getUniqueTags posts) ∧
  allocates (Runtime.getUniqueTagsWithCount posts).
Proof.
  split; [|split; [|split; [|split]]].
  - intros PROD. unfold Runtime.getAllPosts, Runtime.getCollection.
    apply allocates_bind; [apply grows_load_posts|]. intros es.
    apply allocates_bind; [apply grows_filter_entries|]. intros kept.
    apply allocates_alloc.
  - unfold Runtime.groupPostsByYear.
    apply allocates_bind; [apply grows_load_posts|]. intros ps.
    apply allocates_alloc_keep. intros acc.
    apply keeps_bind; [|intros _; apply keeps_ret].
    apply grows_for_each. intros eo. apply grows_groupPostsByYear_step.
  - apply allocates_getAllTags.
  - unfold Runtime.getUniqueTags.
    apply allocates_bind; [apply allocates_grows, allocates_getAllTags|].
    intros all. apply allocates_bind; [apply grows_load_strings|]. intros ts.
    apply allocates_bind; [apply grows_alloc|]. intros set.
    apply allocates_bind.
    { apply grows_for_each. intros t.
      apply grows_bind; [apply grows_load_set|]. intros s. apply grows_store. }
    intros _. apply allocates_bind; [apply grows_load_set|]. intros s.
    apply allocates_alloc.
  - unfold Runtime.getUniqueTagsWithCount.
    apply allocates_bind; [apply allocates_grows, allocates_getAllTags|].
    intros all. apply allocates_bind; [apply grows_load_strings|]. intros ts.
    apply allocates_bind; [apply grows_alloc|]. intros acc.
    apply allocates_bind.
    { apply grows_for_each. intros t.
      apply grows_bind; [apply grows_load_map|]. intros m. apply grows_store. }
    intros _. apply allocates_bind; [apply grows_load_map|]. intros m.
    apply allocates_alloc_keep. intros arr.
    apply keeps_bind; [apply grows_load_pairs|]. intros a.
    apply keeps_bind; [apply grows_store|]. intros _. apply keeps_ret.
Qed.

Lemma operations_return_new_objects_witness :
  ∃ r h', Runtime.getUniqueTagsWithCount 2%nat sample_heap = Runtime.Ok (r, h') ∧
          (length sample_heap ≤ r < length h')%nat.
Proof.
  eexists _, _. split; [reflexivity|].
  apply (proj2 (proj2 (proj2 (proj2 (operations_return_new_objects 2%nat))))).
  reflexivity.
Defined.
